(** * mandy: a command-line flag parser (package [mandy])

    A shallow embedding of the parsing and dispatch engine of the package:
    the value boxes of value.go, the error values and policies of errors.go,
    the [Flag] record, and the [Command] methods [accepts], [Var], [parseOne],
    [Parse], [Handle], [NewCommand] and [NewChild].

    Conventions.
    - A Go [string] is a byte sequence: Rocq's [string].  Bytes are read as
      [Z] where Go does arithmetic on them.
    - Machine integers are [Z] with the wrap-around written out.
    - A Go [map] is a [gmap]; a [*Flag] is identified with the key under
      which [Var] stored it, a [*Command] with its index in the heap.
    - A method that can panic or leave the process returns a [result]. *)

From Stdlib Require Import ZArith String Ascii List Lia Bool.
From Stdlib Require Import Floats.PrimFloat.
From stdpp Require Import base option list gmap strings.

Local Open Scope string_scope.
Local Open Scope Z_scope.

(** ** Bytes and the [strings] package *)

Definition byte_of (c : ascii) : Z := Z.of_N (N_of_ascii c).
Definition ascii_of (b : Z) : ascii := ascii_of_N (Z.to_N b).

Fixpoint bytes (s : string) : list Z :=
  match s with
  | EmptyString => []
  | String c s' => byte_of c :: bytes s'
  end.

Fixpoint string_of_bytes (l : list Z) : string :=
  match l with
  | [] => EmptyString
  | b :: l' => String (ascii_of b) (string_of_bytes l')
  end.

(** [len(s)], a Go [int]. *)
Definition len (s : string) : Z := Z.of_nat (String.length s).

(** [s[n:]] for [0 <= n <= len(s)]. *)
Fixpoint string_drop (n : nat) (s : string) : string :=
  match n, s with
  | O, _ => s
  | S n', String _ s' => string_drop n' s'
  | S _, EmptyString => EmptyString
  end.

(** [s[:n]] for [0 <= n <= len(s)]. *)
Fixpoint string_take (n : nat) (s : string) : string :=
  match n, s with
  | O, _ => EmptyString
  | S n', String c s' => String c (string_take n' s')
  | S _, EmptyString => EmptyString
  end.

(** [strings.HasPrefix(s, prefix)]. *)
Fixpoint strings_HasPrefix (s prefix : string) {struct prefix} : bool :=
  match prefix, s with
  | EmptyString, _ => true
  | String p prefix', String c s' =>
      if Ascii.eqb c p then strings_HasPrefix s' prefix' else false
  | String _ _, EmptyString => false
  end.

(** [strings.TrimPrefix(s, prefix)]. *)
Definition strings_TrimPrefix (s prefix : string) : string :=
  if strings_HasPrefix s prefix then string_drop (String.length prefix) s else s.

(** [strings.Contains(s, substr)]. *)
Fixpoint strings_Contains (s substr : string) : bool :=
  if strings_HasPrefix s substr then true
  else match s with
       | EmptyString => false
       | String _ s' => strings_Contains s' substr
       end.

(** [strings.Cut(s, sep)]: the text before and after the first [sep]. *)
Fixpoint strings_Cut (s sep : string) : option (string * string) :=
  if strings_HasPrefix s sep then Some (EmptyString, string_drop (String.length sep) s)
  else match s with
       | EmptyString => None
       | String c s' =>
           match strings_Cut s' sep with
           | Some (before, after) => Some (String c before, after)
           | None => None
           end
       end.

(** [strings.SplitN(s, sep, 2)] for a non-empty [sep]: at most two parts,
    split at the first [sep]. *)
Definition strings_SplitN2 (s sep : string) : list string :=
  match strings_Cut s sep with
  | Some (before, after) => [before; after]
  | None => [s]
  end.

(** ** Runes: [for i, r := range s] and [string(r)]

    Ranging over a string decodes UTF-8; an invalid sequence yields
    U+FFFD and advances by one byte. *)

Definition RuneError : Z := 65533.

Definition is_cont (b : Z) : bool := (128 <=? b) && (b <=? 191).

(** [utf8.DecodeRuneInString]: the code point and its width in bytes. *)
Definition utf8_DecodeRune (l : list Z) : Z * nat :=
  match l with
  | [] => (RuneError, 0%nat)
  | b0 :: t =>
      if b0 <? 128 then (b0, 1%nat)
      else if (194 <=? b0) && (b0 <=? 223) then
        match t with
        | b1 :: _ =>
            if is_cont b1 then (Z.lor (Z.shiftl (Z.land b0 31) 6) (Z.land b1 63), 2%nat)
            else (RuneError, 1%nat)
        | _ => (RuneError, 1%nat)
        end
      else if (224 <=? b0) && (b0 <=? 239) then
        match t with
        | b1 :: b2 :: _ =>
            let lo := if b0 =? 224 then 160 else 128 in
            let hi := if b0 =? 237 then 159 else 191 in
            if (lo <=? b1) && (b1 <=? hi) && is_cont b2 then
              (Z.lor (Z.shiftl (Z.land b0 15) 12)
                 (Z.lor (Z.shiftl (Z.land b1 63) 6) (Z.land b2 63)), 3%nat)
            else (RuneError, 1%nat)
        | _ => (RuneError, 1%nat)
        end
      else if (240 <=? b0) && (b0 <=? 244) then
        match t with
        | b1 :: b2 :: b3 :: _ =>
            let lo := if b0 =? 240 then 144 else 128 in
            let hi := if b0 =? 244 then 143 else 191 in
            if (lo <=? b1) && (b1 <=? hi) && is_cont b2 && is_cont b3 then
              (Z.lor (Z.shiftl (Z.land b0 7) 18)
                 (Z.lor (Z.shiftl (Z.land b1 63) 12)
                    (Z.lor (Z.shiftl (Z.land b2 63) 6) (Z.land b3 63))), 4%nat)
            else (RuneError, 1%nat)
        | _ => (RuneError, 1%nat)
        end
      else (RuneError, 1%nat)
  end.

(** [string(r)] for a rune [r]: its UTF-8 encoding, that of U+FFFD when
    [r] is no valid code point. *)
Definition string_of_rune (r : Z) : string :=
  let r := if (r <? 0) || (1114111 <? r) || ((55296 <=? r) && (r <=? 57343))
           then RuneError else r in
  string_of_bytes
    (if r <? 128 then [r]
     else if r <? 2048 then
       [Z.lor 192 (Z.shiftr r 6); Z.lor 128 (Z.land r 63)]
     else if r <? 65536 then
       [Z.lor 224 (Z.shiftr r 12); Z.lor 128 (Z.land (Z.shiftr r 6) 63);
        Z.lor 128 (Z.land r 63)]
     else
       [Z.lor 240 (Z.shiftr r 18); Z.lor 128 (Z.land (Z.shiftr r 12) 63);
        Z.lor 128 (Z.land (Z.shiftr r 6) 63); Z.lor 128 (Z.land r 63)]).

(** The pairs [(i, r)] that [for i, r := range s] goes through.  [skip]
    counts the bytes of the current rune still to pass. *)
Fixpoint range_from (l : list Z) (i : Z) (skip : nat) : list (Z * Z) :=
  match l with
  | [] => []
  | _ :: l' =>
      match skip with
      | S k => range_from l' (i + 1) k
      | O =>
          let '(r, w) := utf8_DecodeRune l in
          (i, r) :: range_from l' (i + 1) (Nat.pred w)
      end
  end.

Definition range_string (s : string) : list (Z * Z) := range_from (bytes s) 0 0%nat.

(** ** Error values (errors.go) and formatted texts

    The texts that [fmt.Sprintf], [fmt.Errorf] and [errors.New] build are
    kept symbolic: one constructor per format string of the package, with
    the arguments of the verbs. *)

Inductive message :=
  | msg_begins_with_dash (name : string)     (* flag %q begins with - *)
  | msg_contains_eq (name : string)          (* flag %q contains = *)
  | msg_redefined (name : string)            (* flag redefined: %s *)
  | msg_cmd_redefined (cmd name : string)    (* %s flag redefined: %s *)
  | msg_short_collision (name other : string)
      (* Short name collision between %q and %q flags *)
  | msg_unknown_flag (name : string)         (* unknown flag: %s *)
  | msg_invalid_value (name value : string)  (* invalid value for flag %s: %s *)
  | msg_unexpected_value (name : string)
      (* unexpected value for boolean flag: %s *)
  | msg_missing_value (name : string)
      (* missing value for non-boolean flag: %s *)
  | msg_unrecognized_policy                  (* unrecognized error policy *)
  | msg_text (s : string).

(** [strconv.ErrSyntax], [strconv.ErrRange], and the two errors about the
    arguments [base] and [bitSize]. *)
Inductive NumErrKind := ErrSyntax | ErrRange | ErrBase | ErrBitSize.

Inductive error :=
  | ErrHelp                 (* mandy: help requested *)
  | ErrNilMain
  | errParse                (* parse error *)
  | errRange                (* value out of range *)
  | NumError (Func Num : string) (Err : NumErrKind)   (* *strconv.NumError *)
  | Errorf (m : message)    (* fmt.Errorf(...) *)
  | other_error (text : string).

(** errors.go: [numError]. *)
Definition numError (err : error) : error :=
  match err with
  | NumError _ _ ErrSyntax => errParse
  | NumError _ _ ErrRange => errRange
  | _ => err
  end.

(** [if err != nil { err = numError(err) }]. *)
Definition numError_if (err : option error) : option error :=
  match err with
  | Some e => Some (numError e)
  | None => None
  end.

(** [ErrorPolicy] is a [uint8]; the constants are numbered by [iota]. *)
Definition ErrorPolicy := N.
Definition ContinueOnError : ErrorPolicy := 0%N.
Definition ExitOnError : ErrorPolicy := 1%N.
Definition PanicOnError : ErrorPolicy := 2%N.
Definition LogOnError : ErrorPolicy := 3%N.

(** ** The [strconv] package

    A model of the Go standard library functions the value boxes call. *)

Definition strconv_IntSize : Z := 64.
Definition maxUint64 : Z := 2 ^ 64 - 1.

(** Arithmetic of [uint64] and the conversion to [int64]. *)
Definition wrap64 (z : Z) : Z := z mod 2 ^ 64.
Definition to_int64 (z : Z) : Z := (z + 2 ^ 63) mod 2 ^ 64 - 2 ^ 63.

(** [strconv.ParseBool]. *)
Definition strconv_ParseBool (str : string) : bool * option error :=
  if bool_decide (str ∈ ["1"; "t"; "T"; "true"; "TRUE"; "True"]) then (true, None)
  else if bool_decide (str ∈ ["0"; "f"; "F"; "false"; "FALSE"; "False"]) then (false, None)
  else (false, Some (NumError "ParseBool" str ErrSyntax)).

(** [strconv.FormatBool]. *)
Definition strconv_FormatBool (b : bool) : string :=
  if b then "true" else "false".

(** [lower(c)] is [c | ('x' - 'X')]. *)
Definition lower (c : Z) : Z := Z.lor c 32.

(** The digit loop of [ParseUint]: [inl] when the bytes are used up, [inr]
    for a [return] from inside the loop. *)
Fixpoint ParseUint_loop (base0 : bool) (base cutoff maxVal : Z)
    (s : list Z) (n : Z) (underscores : bool) : (Z * bool) + (Z * NumErrKind) :=
  match s with
  | [] => inl (n, underscores)
  | c :: rest =>
      if (c =? 95) && base0 then
        ParseUint_loop base0 base cutoff maxVal rest n true
      else
        let d := if (48 <=? c) && (c <=? 57) then Some (c - 48)
                 else if (97 <=? lower c) && (lower c <=? 122) then Some (lower c - 97 + 10)
                 else None in
        match d with
        | None => inr (0, ErrSyntax)
        | Some d =>
            if base <=? d then inr (0, ErrSyntax)
            else if cutoff <=? n then inr (maxVal, ErrRange)
            else
              let n := wrap64 (n * base) in
              let n1 := wrap64 (n + d) in
              if (n1 <? n) || (maxVal <? n1) then inr (maxVal, ErrRange)
              else ParseUint_loop base0 base cutoff maxVal rest n1 underscores
        end
  end.

(** The scan of [underscoreOK] after the sign and the base prefix. [saw] is
    48 for a digit, 95 for an underscore, 33 for anything else, 94 at the
    start. *)
Fixpoint underscoreOK_loop (hex : bool) (s : list Z) (saw : Z) : bool :=
  match s with
  | [] => negb (saw =? 95)
  | c :: rest =>
      if ((48 <=? c) && (c <=? 57)) || (hex && (97 <=? lower c) && (lower c <=? 102)) then
        underscoreOK_loop hex rest 48
      else if c =? 95 then
        if negb (saw =? 48) then false else underscoreOK_loop hex rest 95
      else if saw =? 95 then false
      else underscoreOK_loop hex rest 33
  end.

(** [strconv.underscoreOK]. *)
Definition underscoreOK (s : list Z) : bool :=
  let s := match s with
           | c :: rest => if (c =? 45) || (c =? 43) then rest else s
           | [] => s
           end in
  match s with
  | c0 :: c1 :: rest =>
      if (c0 =? 48) && ((lower c1 =? 98) || (lower c1 =? 111) || (lower c1 =? 120)) then
        underscoreOK_loop (lower c1 =? 120) rest 48
      else underscoreOK_loop false s 94
  | _ => underscoreOK_loop false s 94
  end.

(** [strconv.ParseUint(s, base, bitSize)]. *)
Definition strconv_ParseUint (s : string) (base bitSize : Z) : Z * option error :=
  let fail k := Some (NumError "ParseUint" s k) in
  match bytes s with
  | [] => (0, fail ErrSyntax)
  | c0 :: tl =>
      let prefixed :=
        if (2 <=? base) && (base <=? 36) then Some (base, c0 :: tl)
        else if base =? 0 then
          if c0 =? 48 then
            match tl with
            | c1 :: _ :: _ =>
                if lower c1 =? 98 then Some (2, List.tl tl)
                else if lower c1 =? 111 then Some (8, List.tl tl)
                else if lower c1 =? 120 then Some (16, List.tl tl)
                else Some (8, tl)
            | _ => Some (8, tl)
            end
          else Some (10, c0 :: tl)
        else None in
      match prefixed with
      | None => (0, fail ErrBase)
      | Some (base', digits) =>
          let bitSize' := if bitSize =? 0 then strconv_IntSize else bitSize in
          if (bitSize' <? 0) || (64 <? bitSize') then (0, fail ErrBitSize)
          else
            let cutoff := maxUint64 / base' + 1 in
            let maxVal := wrap64 (wrap64 (2 ^ bitSize') - 1) in
            match ParseUint_loop (base =? 0) base' cutoff maxVal digits 0 false with
            | inr (v, k) => (v, fail k)
            | inl (n, underscores) =>
                if underscores && negb (underscoreOK (bytes s)) then (0, fail ErrSyntax)
                else (n, None)
            end
      end
  end.

(** [strconv.ParseInt(s, base, bitSize)]. *)
Definition strconv_ParseInt (s : string) (base bitSize : Z) : Z * option error :=
  match s with
  | EmptyString => (0, Some (NumError "ParseInt" s ErrSyntax))
  | String c s' =>
      let neg := byte_of c =? 45 in
      let digits := if (byte_of c =? 43) || neg then s' else s in
      let '(un, err) := strconv_ParseUint digits base bitSize in
      match err with
      | Some (NumError _ _ ErrRange) | None =>
          let bitSize' := if bitSize =? 0 then strconv_IntSize else bitSize in
          let cutoff := wrap64 (2 ^ (bitSize' - 1)) in
          if negb neg && (cutoff <=? un) then
            (to_int64 (cutoff - 1), Some (NumError "ParseInt" s ErrRange))
          else if neg && (cutoff <? un) then
            (to_int64 (- to_int64 cutoff), Some (NumError "ParseInt" s ErrRange))
          else
            let n := to_int64 un in
            (if neg then to_int64 (- n) else n, None)
      | Some (NumError _ _ k) => (0, Some (NumError "ParseInt" s k))
      | Some e => (0, Some e)
      end
  end.

(** The decimal digits of [u], most significant first, in front of [acc];
    [fuel] bounds the number of digits. *)
Fixpoint formatBits10 (fuel : nat) (u : Z) (acc : string) : string :=
  match fuel with
  | O => acc
  | S fuel' =>
      let acc' := String (ascii_of (48 + u mod 10)) acc in
      if u / 10 =? 0 then acc' else formatBits10 fuel' (u / 10) acc'
  end.

(** [strconv.FormatUint(u, 10)]: a [uint64] has at most twenty digits. *)
Definition strconv_FormatUint10 (u : Z) : string := formatBits10 20 u EmptyString.

(** [strconv.FormatInt(i, 10)], which is also [strconv.Itoa]. *)
Definition strconv_FormatInt10 (i : Z) : string :=
  if i <? 0 then String (ascii_of 45) (formatBits10 20 (- i) EmptyString)
  else formatBits10 20 i EmptyString.

(** ** Value boxes (value.go)

    [float64Value] and [durationValue] convert through
    [strconv.ParseFloat], [strconv.FormatFloat], [time.ParseDuration] and
    [time.Duration.String].  These are not modelled: a box of either type
    carries the two library functions it calls. *)

Record strconv_float := {
  strconv_ParseFloat : string -> Z -> float * option error;
  (* strconv.FormatFloat(f, 'g', -1, bitSize) *)
  strconv_FormatFloat_g : float -> Z -> string
}.

Record time_Duration := {
  time_ParseDuration : string -> Z * option error;
  time_Duration_String : Z -> string
}.

(** The implementations of the interface [Getter] that the package
    provides.  An integer box holds a [Z] within the range of its type; a
    function box holds the callback, modelled by the error it returns. *)
Inductive Getter :=
  | boolValue (b : bool)
  | intValue (i : Z)
  | int64Value (i : Z)
  | uintValue (u : Z)
  | uint64Value (u : Z)
  | stringValue (s : string)
  | float64Value (lib : strconv_float) (f : float)
  | durationValue (lib : time_Duration) (d : Z)
  | funcValue (fn : string -> option error).

(** What [Get() any] returns: a value with its dynamic type. *)
Inductive any :=
  | any_bool (b : bool)
  | any_int (i : Z)
  | any_int64 (i : Z)
  | any_uint (u : Z)
  | any_uint64 (u : Z)
  | any_string (s : string)
  | any_float64 (f : float)
  | any_Duration (d : Z)
  | any_funcValue (fn : string -> option error).

Definition boolValue_Set (s : string) : bool * option error :=
  let '(v, err) := strconv_ParseBool s in
  (v, match err with Some _ => Some errParse | None => None end).

Definition intValue_Set (s : string) : Z * option error :=
  let '(v, err) := strconv_ParseInt s 0 strconv_IntSize in
  (v, numError_if err).

Definition int64Value_Set (s : string) : Z * option error :=
  let '(v, err) := strconv_ParseInt s 0 64 in
  (v, numError_if err).

Definition uintValue_Set (s : string) : Z * option error :=
  let '(v, err) := strconv_ParseUint s 0 strconv_IntSize in
  (v, numError_if err).

Definition uint64Value_Set (s : string) : Z * option error :=
  let '(v, err) := strconv_ParseUint s 0 64 in
  (v, numError_if err).

Definition stringValue_Set (val : string) : string * option error := (val, None).

Definition float64Value_Set (lib : strconv_float) (s : string) : float * option error :=
  let '(v, err) := strconv_ParseFloat lib s 64 in
  (v, numError_if err).

Definition durationValue_Set (lib : time_Duration) (s : string) : Z * option error :=
  let '(v, err) := time_ParseDuration lib s in
  (v, match err with Some _ => Some errParse | None => None end).

(** [v.Set(s)]: the box after the call and the error returned.  Every box
    but the function box stores the converted value whether or not the
    conversion failed. *)
Definition Set_ (v : Getter) (s : string) : Getter * option error :=
  match v with
  | boolValue _ => let '(b, err) := boolValue_Set s in (boolValue b, err)
  | intValue _ => let '(i, err) := intValue_Set s in (intValue i, err)
  | int64Value _ => let '(i, err) := int64Value_Set s in (int64Value i, err)
  | uintValue _ => let '(u, err) := uintValue_Set s in (uintValue u, err)
  | uint64Value _ => let '(u, err) := uint64Value_Set s in (uint64Value u, err)
  | stringValue _ => let '(x, err) := stringValue_Set s in (stringValue x, err)
  | float64Value lib _ => let '(f, err) := float64Value_Set lib s in (float64Value lib f, err)
  | durationValue lib _ => let '(d, err) := durationValue_Set lib s in (durationValue lib d, err)
  | funcValue fn => (funcValue fn, fn s)
  end.

(** [v.String()]. *)
Definition String_ (v : Getter) : string :=
  match v with
  | boolValue b => strconv_FormatBool b
  | intValue i => strconv_FormatInt10 i
  | int64Value i => strconv_FormatInt10 i
  | uintValue u => strconv_FormatUint10 u
  | uint64Value u => strconv_FormatUint10 u
  | stringValue s => s
  | float64Value lib f => strconv_FormatFloat_g lib f 64
  | durationValue lib d => time_Duration_String lib d
  | funcValue _ => EmptyString
  end.

(** [v.IsBool()]. *)
Definition IsBool (v : Getter) : bool :=
  match v with
  | boolValue _ => true
  | _ => false
  end.

(** [v.Get()]. *)
Definition Get (v : Getter) : any :=
  match v with
  | boolValue b => any_bool b
  | intValue i => any_int i
  | int64Value i => any_int64 i
  | uintValue u => any_uint u
  | uint64Value u => any_uint64 u
  | stringValue s => any_string s
  | float64Value _ f => any_float64 f
  | durationValue _ d => any_Duration d
  | funcValue fn => any_funcValue fn
  end.

(** The type assertion [x.(boolFlag)] on a non-nil [x]: it holds when the
    dynamic type of [x] has the methods [String], [Set] and [IsBool].  Of
    the types [Get] returns only [funcValue] has methods. *)
Definition implements_boolFlag (x : any) : bool :=
  match x with
  | any_funcValue _ => true
  | _ => false
  end.

(** flag.go: a [Flag]. *)
Record Flag := mkFlag {
  Name : string;
  Description : string;
  DefValue : string;
  Short : bool;
  Value : Getter
}.

Definition Flag_with_Value (f : Flag) (v : Getter) : Flag :=
  mkFlag (Name f) (Description f) (DefValue f) (Short f) v.

Definition Flag_with_Short (f : Flag) (b : bool) : Flag :=
  mkFlag (Name f) (Description f) (DefValue f) b (Value f).

(** ** Effects: panics, [os.Exit] and printed lines

    A method runs on a state [S] (a [Command], or the whole [World]) and
    ends in one of three ways: it returns, it panics, or it leaves the
    process through [os.Exit].  What it printed is collected on the way. *)

Inductive panic_value :=
  | panic_msg (m : message)      (* panic(msg) with a formatted text *)
  | panic_error (e : error)      (* panic(err) *)
  | panic_index_out_of_range     (* s[i] out of range *)
  | panic_slice_bounds           (* s[a:b] out of range *)
  | panic_nil_dereference.

(** Where a line goes: [os.Stderr] or a writer installed by [SetOutput]. *)
Inductive sink := os_Stderr | io_Writer (w : nat).

Inductive printed :=
  | print_msg (to : sink) (m : message)   (* fmt.Fprintln(to, msg) *)
  | print_err (to : sink) (e : error).    (* fmt.Fprintln(to, err) *)

Inductive result (A : Type) :=
  | Ok (a : A)
  | Panic (v : panic_value)
  | Exit (code : Z).
Arguments Ok {A} a.
Arguments Panic {A} v.
Arguments Exit {A} code.

Record outcome (S A : Type) := Outcome {
  res : result A;
  final : S;
  lines : list printed
}.
Arguments Outcome {S A} res final lines.
Arguments res {S A} o.
Arguments final {S A} o.
Arguments lines {S A} o.

Definition M (S A : Type) : Type := S -> outcome S A.

Definition M_ret {S A} (a : A) : M S A := fun s => Outcome (Ok a) s [].

Definition M_bind {S A B} (f : A -> M S B) (m : M S A) : M S B :=
  fun s =>
    let o := m s in
    match res o with
    | Ok a => let o' := f a (final o) in Outcome (res o') (final o') (lines o ++ lines o')
    | Panic v => Outcome (Panic v) (final o) (lines o)
    | Exit code => Outcome (Exit code) (final o) (lines o)
    end.

#[global] Instance M_mret {S} : MRet (M S) := @M_ret S.
#[global] Instance M_mbind {S} : MBind (M S) := @M_bind S.

Definition get {S} : M S S := fun s => Outcome (Ok s) s [].
Definition put {S} (s : S) : M S unit := fun _ => Outcome (Ok tt) s [].
Definition panic {S A} (v : panic_value) : M S A := fun s => Outcome (Panic v) s [].
Definition os_Exit {S A} (code : Z) : M S A := fun s => Outcome (Exit code) s [].
Definition print {S} (p : printed) : M S unit := fun s => Outcome (Ok tt) s [p].

(** A pure computation that may panic, run inside a method. *)
Definition lift_result {S A} (r : result A) : M S A :=
  fun s => Outcome r s [].

(** [defer d] around [body]: [d] runs when [body] returns and when it
    panics, and does not run when the process exits. *)
Definition with_defer {S A} (d : M S unit) (body : M S A) : M S A :=
  fun s =>
    let o := body s in
    match res o with
    | Exit code => o
    | _ =>
        let o' := d (final o) in
        match res o' with
        | Ok _ => Outcome (res o) (final o') (lines o ++ lines o')
        | Panic v => Outcome (Panic v) (final o') (lines o ++ lines o')
        | Exit code => Outcome (Exit code) (final o') (lines o ++ lines o')
        end
    end.

(** [l[i]] on a slice of strings. *)
Definition index_strings {S} (l : list string) (i : nat) : M S string :=
  match l !! i with
  | Some x => mret x
  | None => panic panic_index_out_of_range
  end.

(** [s[0]] on a string. *)
Definition first_byte {S} (s : string) : M S Z :=
  match s with
  | String c _ => mret (byte_of c)
  | EmptyString => panic panic_index_out_of_range
  end.

(** ** Commands *)

(** What the field [Usage func() string] holds. *)
Inductive UsageFunc :=
  | method_defaultUsage          (* c.defaultUsage, bound to the command *)
  | user_Usage (text : string).

(** The fields of [Command] that parsing reads or writes.  Left out:
    [Main] and [help].  [actual] holds the keys of the Go map; the flag
    bound to a key is the one [formal] holds under it.  [parent] and
    [children] hold heap indices. *)
Record Command := mkCommand {
  output : option nat;
  parent : option nat;
  actual : gset string;
  formal : gmap string Flag;
  Usage : option UsageFunc;
  Format : string;
  name : string;
  URL : string;
  children : list nat;
  args : list string;
  aliases : list string;
  parsed : bool;
  errorPolicy : ErrorPolicy;
  lambda : bool
}.

(** The zero value [Command{}]. *)
Definition zero_Command : Command :=
  mkCommand None None ∅ ∅ None EmptyString EmptyString EmptyString [] [] [] false 0%N false.

Definition with_args (c : Command) (a : list string) : Command :=
  mkCommand (output c) (parent c) (actual c) (formal c) (Usage c) (Format c)
    (name c) (URL c) (children c) a (aliases c) (parsed c) (errorPolicy c) (lambda c).

Definition with_formal (c : Command) (m : gmap string Flag) : Command :=
  mkCommand (output c) (parent c) (actual c) m (Usage c) (Format c)
    (name c) (URL c) (children c) (args c) (aliases c) (parsed c) (errorPolicy c) (lambda c).

Definition with_actual (c : Command) (a : gset string) : Command :=
  mkCommand (output c) (parent c) a (formal c) (Usage c) (Format c)
    (name c) (URL c) (children c) (args c) (aliases c) (parsed c) (errorPolicy c) (lambda c).

Definition with_parsed (c : Command) (b : bool) : Command :=
  mkCommand (output c) (parent c) (actual c) (formal c) (Usage c) (Format c)
    (name c) (URL c) (children c) (args c) (aliases c) b (errorPolicy c) (lambda c).

Definition with_Usage (c : Command) (u : option UsageFunc) : Command :=
  mkCommand (output c) (parent c) (actual c) (formal c) u (Format c)
    (name c) (URL c) (children c) (args c) (aliases c) (parsed c) (errorPolicy c) (lambda c).

Definition with_parent (c : Command) (p : option nat) : Command :=
  mkCommand (output c) p (actual c) (formal c) (Usage c) (Format c)
    (name c) (URL c) (children c) (args c) (aliases c) (parsed c) (errorPolicy c) (lambda c).

Definition with_URL (c : Command) (u : string) : Command :=
  mkCommand (output c) (parent c) (actual c) (formal c) (Usage c) (Format c)
    (name c) u (children c) (args c) (aliases c) (parsed c) (errorPolicy c) (lambda c).

Definition with_children (c : Command) (l : list nat) : Command :=
  mkCommand (output c) (parent c) (actual c) (formal c) (Usage c) (Format c)
    (name c) (URL c) l (args c) (aliases c) (parsed c) (errorPolicy c) (lambda c).

(** [c.Output()]. *)
Definition Output (c : Command) : sink :=
  match output c with
  | None => os_Stderr
  | Some w => io_Writer w
  end.

(** [c.sprintf(format, a...)]: prints the text to [c.Output()] and
    returns it. *)
Definition sprintf (m : message) : M Command message :=
  c ← get;
  _ ← print (print_msg (Output c) m);
  mret m.

(** The body of the loop of [accepts], over the pairs of [c.formal] in
    the order the iteration yields them.  [k[:1]] panics on an empty key. *)
Fixpoint accepts_in (kvs : list (string * Flag)) (name : string) : result string :=
  match kvs with
  | [] => Ok EmptyString
  | (k, v) :: rest =>
      if Short v then
        match k with
        | EmptyString => Panic panic_slice_bounds
        | String c0 _ =>
            if bool_decide (name = String c0 EmptyString) || bool_decide (name = k)
            then Ok k else accepts_in rest name
        end
      else if bool_decide (name = k) then Ok k else accepts_in rest name
  end.

(** [c.accepts(name)].  Go leaves the order of a map iteration open, and
    may take another one at every call; the model goes through the map in
    the order of [map_to_list].  The model and every run of the program
    agree on the names that at most one registered flag matches
    ([accepts_any_order], [resolves]); a name that two flags match, as the
    byte [v] beside a flag [v] that is not short-eligible and a
    short-eligible flag [verbose], resolves with the order. *)
Definition accepts (c : Command) (name : string) : result string :=
  accepts_in (map_to_list (formal c)) name.

(** [flag.Value.Set(s)] for the flag stored under [k]: the box changes in
    place, the error is handed back. *)
Definition set_flag_value (k : string) (s : string) : M Command (option error) :=
  c ← get;
  match formal c !! k with
  | None => panic panic_nil_dereference
  | Some flag =>
      let '(v, err) := Set_ (Value flag) s in
      _ ← put (with_formal c (<[k := Flag_with_Value flag v]> (formal c)));
      mret err
  end.

(** What [parseOne] returns: a child to descend into (never set by the
    code), whether a flag was seen, and an error. *)
Definition parsed_one : Type := option nat * bool * option error.

(** The loop of [parseOne] over the runes of a cluster [-abc]; [n] is
    [len(flagNames)]. *)
Fixpoint parseOne_cluster (runes : list (Z * Z)) (n : Z) : M Command parsed_one :=
  match runes with
  | [] => mret (None, true, None)
  | (i, flagName) :: rest =>
      c ← get;
      k ← lift_result (accepts c (string_of_rune flagName));
      match formal c !! k with
      | None => mret (None, false, Some (Errorf (msg_unknown_flag (string_of_rune flagName))))
      | Some flag =>
          if IsBool (Value flag) then
            _ ← set_flag_value k "true";
            parseOne_cluster rest n
          else if i =? n - 1 then
            match args c with
            | [] => mret (None, false, Some (Errorf (msg_missing_value (string_of_rune flagName))))
            | a :: _ =>
                _ ← set_flag_value k a;
                c' ← get;
                _ ← put (with_args c' (List.tl (args c')));
                parseOne_cluster rest n
            end
          else mret (None, false, Some (Errorf (msg_unexpected_value (string_of_rune flagName))))
      end
  end.

(** [c.parseOne()]. *)
Definition parseOne : M Command parsed_one :=
  c ← get;
  match args c with
  | [] => mret (None, false, None)
  | arg :: rest =>
      _ ← put (with_args c rest);
      if strings_Contains arg "=" then
        let parts := strings_SplitN2 arg "=" in
        flagName ← index_strings parts 0;
        flagValue ← index_strings parts 1;
        c ← get;
        k ← lift_result (accepts c flagName);
        match formal c !! k with
        | None => mret (None, false, Some (Errorf (msg_unknown_flag flagName)))
        | Some flag =>
            if negb (IsBool (Value flag)) then
              err ← set_flag_value k flagValue;
              match err with
              | Some _ => mret (None, false, Some (Errorf (msg_invalid_value flagName flagValue)))
              | None => mret (None, true, None)
              end
            else mret (None, false, Some (Errorf (msg_unexpected_value flagName)))
        end
      else if strings_HasPrefix arg "--" then
        let flagName := strings_TrimPrefix arg "--" in
        c ← get;
        k ← lift_result (accepts c flagName);
        match formal c !! k with
        | None => mret (None, false, Some (Errorf (msg_unknown_flag flagName)))
        | Some flag =>
            if implements_boolFlag (Get (Value flag)) then
              _ ← set_flag_value k "true";
              mret (None, true, None)
            else mret (None, false, Some (Errorf (msg_missing_value flagName)))
        end
      else if strings_HasPrefix arg "-" then
        let flagNames := strings_TrimPrefix arg "-" in
        parseOne_cluster (range_string flagNames) (len flagNames)
      else mret (None, false, None)
  end.

(** [c.Set(name, value)], the one method that fills [actual]. *)
Definition Set_flag (name value : string) : M Command (option error) :=
  c ← get;
  match formal c !! name with
  | None => mret (Some (Errorf (msg_text ("no such flag -" ++ name))))
  | Some flag =>
      err ← set_flag_value name value;
      match err with
      | Some e => mret (Some e)
      | None =>
          c ← get;
          _ ← put (with_actual c ({[name]} ∪ actual c));
          mret None
      end
  end.

(** [c.Handle(err)]: a value receiver, so the command is only read. *)
Definition Handle (err : option error) : M Command unit :=
  match err with
  | None => mret tt
  | Some e =>
      c ← get;
      if (errorPolicy c =? ContinueOnError)%N then print (print_err os_Stderr e)
      else if (errorPolicy c =? ExitOnError)%N then
        _ ← print (print_err os_Stderr e);
        os_Exit 1
      else if (errorPolicy c =? PanicOnError)%N then panic (panic_error e)
      else panic (panic_msg msg_unrecognized_policy)
  end.

(** [c.setparsed()]. *)
Definition setparsed : M Command unit :=
  c ← get;
  put (with_parsed c true).

(** [other.Short = false]. *)
Definition revoke (other : Flag) : Flag := Flag_with_Short other false.

(** The loop of [Var] over the flags already registered, for a new
    short-eligible flag named [flagName].  [other.Short = false] writes
    through the pointer: the flag stored under [k] changes. *)
Fixpoint Var_collisions (helpName flagName : string)
    (others : list (string * Flag)) : M Command unit :=
  match others with
  | [] => mret tt
  | (k, other) :: rest =>
      if bool_decide (Name other <> flagName) then
        o0 ← first_byte (Name other);
        f0 ← first_byte flagName;
        if (o0 =? f0) && Short other then
          if bool_decide (helpName = Name other) then
            c ← get;
            _ ← put (with_formal c (alter revoke k (formal c)));
            Var_collisions helpName flagName rest
          else
            msg ← sprintf (msg_short_collision flagName (Name other));
            panic (panic_msg msg)
        else Var_collisions helpName flagName rest
      else Var_collisions helpName flagName rest
  end.

(** [c.Var(value, name, usage, short)].  [helpName] is the value of the
    package variable [HelpName] at the call.  Returns the new flag. *)
Definition Var (helpName : string) (value : Getter) (name' usage : string)
    (short : bool) : M Command Flag :=
  if strings_HasPrefix name' "-" then
    msg ← sprintf (msg_begins_with_dash name');
    panic (panic_msg msg)
  else if strings_Contains name' "=" then
    msg ← sprintf (msg_contains_eq name');
    panic (panic_msg msg)
  else
    let flag := mkFlag name' usage (String_ value) short value in
    c ← get;
    _ ← match formal c !! name' with
        | Some _ =>
            msg ← (if bool_decide (name c = EmptyString)
                   then sprintf (msg_redefined name')
                   else sprintf (msg_cmd_redefined (name c) name'));
            panic (panic_msg msg)
        | None => mret tt
        end;
    _ ← (if Short flag
         then Var_collisions helpName (Name flag) (map_to_list (formal c))
         else mret tt);
    c ← get;
    _ ← put (with_formal c (<[name' := flag]> (formal c)));
    mret flag.

(** [c.Bool], [c.Int], ...: the box starts at the default [value]. *)
Definition Bool (helpName : string) (name' : string) (value : bool) (usage : string)
    (short : bool) : M Command Flag :=
  Var helpName (boolValue value) name' usage short.

Definition Int (helpName : string) (name' : string) (value : Z) (usage : string)
    (short : bool) : M Command Flag :=
  Var helpName (intValue value) name' usage short.

Definition Int64 (helpName : string) (name' : string) (value : Z) (usage : string)
    (short : bool) : M Command Flag :=
  Var helpName (int64Value value) name' usage short.

Definition Uint (helpName : string) (name' : string) (value : Z) (usage : string)
    (short : bool) : M Command Flag :=
  Var helpName (uintValue value) name' usage short.

Definition Uint64 (helpName : string) (name' : string) (value : Z) (usage : string)
    (short : bool) : M Command Flag :=
  Var helpName (uint64Value value) name' usage short.

Definition String_flag (helpName : string) (name' : string) (value : string)
    (usage : string) (short : bool) : M Command Flag :=
  Var helpName (stringValue value) name' usage short.

Definition Float64 (helpName : string) (lib : strconv_float) (name' : string)
    (value : float) (usage : string) (short : bool) : M Command Flag :=
  Var helpName (float64Value lib value) name' usage short.

Definition Duration (helpName : string) (lib : time_Duration) (name' : string)
    (value : Z) (usage : string) (short : bool) : M Command Flag :=
  Var helpName (durationValue lib value) name' usage short.

Definition Func (helpName : string) (fn : string -> option error) (name' usage : string)
    (short : bool) : M Command Flag :=
  Var helpName (funcValue fn) name' usage short.

(** ** The process: the heap of commands, the package variable
    [HelpName], and what the operating system and [net/url] supply. *)
Record World := mkWorld {
  heap : list Command;
  HelpName : string;
  os_Args : list string;
  os_Getenv : string -> string;
  url_JoinPath : string -> list string -> string * option error
}.

Definition with_heap (w : World) (h : list Command) : World :=
  mkWorld h (HelpName w) (os_Args w) (os_Getenv w) (url_JoinPath w).

(** A method called on the command at index [c] of the heap. *)
Definition on {A} (c : nat) (m : M Command A) : M World A :=
  fun w =>
    match heap w !! c with
    | None => Outcome (Panic panic_nil_dereference) w []
    | Some cmd =>
        let o := m cmd in
        Outcome (res o) (with_heap w (<[c := final o]> (heap w))) (lines o)
    end.

Definition update (f : Command -> Command) : M Command unit :=
  c ← get;
  put (f c).

(** [EnvUrl(name)]; [but.Must(err)] stops the program on an error. *)
Definition EnvUrl (name' : string) : M World string :=
  w ← get;
  let repoHost := os_Getenv w "REPO_HOST" in
  let devName := os_Getenv w "DEVELOPER" in
  let '(out, err) := url_JoinPath w repoHost [devName; name'] in
  match err with
  | Some e => panic (panic_error e)
  | None => mret out
  end.

(** [NewCommand(name, errorPolicy)]: the index of the new command. *)
Definition NewCommand (name' : string) (policy : ErrorPolicy) : M World nat :=
  url ← EnvUrl name';
  w ← get;
  let c := length (heap w) in
  _ ← put (with_heap w (heap w ++
         [mkCommand None None ∅ ∅ None "%s [options] [args...]" name' url
            [] [] [] false policy false]));
  _ ← (if bool_decide (name' <> HelpName w) then
         _ ← on c (Var (HelpName w) (boolValue false) (HelpName w) "print this message" true);
         on c (update (fun cmd => with_Usage cmd (Some method_defaultUsage)))
       else mret tt);
  mret c.

(** [c.NewChild(name)]. *)
Definition NewChild (c : nat) (name' : string) : M World nat :=
  cmd ← on c get;
  s ← NewCommand name' (errorPolicy cmd);
  _ ← on s (update (fun x => with_parent x (Some c)));
  cmd ← on c get;
  _ ← on s (update (fun x => with_URL x (URL cmd)));
  _ ← on c (update (fun x => with_children x (children x ++ [s])));
  mret s.

(** Where [Parse_run] stands: at the call [c.Parse(args...)], or inside
    the loop of that call. *)
Inductive Parse_entry :=
  | from_call (args' : list string)
  | in_loop.

(** [c.Parse(args...)].  Each call and each turn of the loop takes one
    unit of [fuel]; [None] is returned when it runs out. *)
Fixpoint Parse_run (fuel : nat) (c : nat) (e : Parse_entry)
    : M World (option (option error)) :=
  match fuel with
  | O => mret None
  | S fuel' =>
      match e with
      | from_call args' =>
          with_defer (on c setparsed)
            (cmd ← on c get;
             w ← get;
             _ ← match parent cmd with
                 | Some p =>
                     pc ← on p get;
                     match args pc with
                     | [] => panic panic_slice_bounds
                     | _ :: t => on c (update (fun x => with_args x t))
                     end
                 | None =>
                     match args' with
                     | _ :: _ => on c (update (fun x => with_args x args'))
                     | [] =>
                         match os_Args w with
                         | [] => panic panic_slice_bounds
                         | _ :: t => on c (update (fun x => with_args x t))
                         end
                     end
                 end;
             Parse_run fuel' c in_loop)
      | in_loop =>
          '(child, seen, err) ← on c parseOne;
          if seen : bool then Parse_run fuel' c in_loop
          else
            match child with
            | Some ch => Parse_run fuel' ch (from_call [])
            | None =>
                match err with
                | None => mret (Some None)
                | Some e =>
                    _ ← on c (Handle (Some e));
                    Parse_run fuel' c in_loop
                end
            end
      end
  end.

Definition Parse (fuel : nat) (c : nat) (args' : list string)
    : M World (option (option error)) :=
  Parse_run fuel c (from_call args').

(** ** Predicates used in the statements *)

(** The number that the decimal digits [ds] write after the digits of
    [n], and the bytes that are decimal digits. *)
Definition dec_value (ds : list Z) (n : Z) : Z :=
  fold_left (fun a c => a * 10 + (c - 48)) ds n.

Definition all_digits (ds : list Z) : Prop := Forall (fun c => 48 <= c <= 57) ds.




(** A registry as [Var] builds it: every flag is stored under its name,
    and no name is empty. *)
Definition wf_formal (m : gmap string Flag) : Prop :=
  map_Forall (fun k f => Name f = k /\ k <> EmptyString) m.

(** The test of the loop of [Var] on a registered flag [other], for a new
    short-eligible flag named [name']: another name, the same first byte,
    and short-eligible. *)
Definition collides (name' : string) (other : Flag) : bool :=
  bool_decide (Name other <> name') &&
  match Name other, name' with
  | String a _, String b _ => byte_of a =? byte_of b
  | _, _ => false
  end && Short other.

(** At most the flag stored under [k] collides with [name']. *)
Definition only_collision (name' k : string) (m : gmap string Flag) : Prop :=
  map_Forall (fun k2 f2 => collides name' f2 = true -> k2 = k) m.

#[global] Instance wf_formal_dec (m : gmap string Flag) : Decision (wf_formal m).
Proof. unfold wf_formal. apply _. Defined.

(** Among the short-eligible flags the first bytes of the names are
    pairwise distinct. *)
Definition short_distinct (m : gmap string Flag) : Prop :=
  map_Forall (fun k1 f1 =>
    map_Forall (fun k2 f2 =>
      Short f1 = true -> Short f2 = true ->
      string_take 1 k1 = string_take 1 k2 -> k1 = k2) m) m.

#[global] Instance short_distinct_dec (m : gmap string Flag) : Decision (short_distinct m).
Proof. unfold short_distinct. apply _. Defined.

(** The invariant of the registry of a command. *)
Definition registry_ok (m : gmap string Flag) : Prop :=
  wf_formal m /\ short_distinct m.

#[global] Instance registry_ok_dec (m : gmap string Flag) : Decision (registry_ok m).
Proof. unfold registry_ok. apply _. Defined.

(** The registry after the loop of [Var] has gone through it without a
    panic: every flag that collides with [name'] is revoked. *)
Definition revoke_collisions (name' : string) (m : gmap string Flag) : gmap string Flag :=
  (fun f => if collides name' f then revoke f else f) <$> m.


(** The test of the loop of [accepts] on the flag [v] stored under [k]. *)
Definition matches (flagName k : string) (v : Flag) : bool :=
  (Short v && bool_decide (flagName = string_take 1 k)) || bool_decide (flagName = k).

(** The names that [Var] lets through: not empty here, no leading dash. *)
Definition legal_names (m : gmap string Flag) : Prop :=
  map_Forall (fun k _ => k <> EmptyString /\ strings_HasPrefix k "-" = false) m.

(** What name resolution and the dispatch look at in a flag: whether it
    is short-eligible and whether its box is boolean. *)
Definition shape (f : Flag) : bool * bool := (Short f, IsBool (Value f)).

Definition registry (c : Command) : gmap string (bool * bool) := shape <$> formal c.

(** A rune of the cluster resolves to a boolean flag. *)
Definition names_bool (c : Command) (q : Z) : Prop :=
  exists k f, accepts c (string_of_rune q) = Ok k /\ formal c !! k = Some f /\
              IsBool (Value f) = true.

(** The help flag that [NewCommand] registers. *)
Definition help_flag (helpName : string) : Flag :=
  mkFlag helpName "print this message" "false" true (boolValue false).

(** ** Example processes and commands *)

(** A process started as [prog] with no arguments and with [REPO_HOST] and
    [DEVELOPER] unset, in which [url.JoinPath] succeeds. *)
Definition bare_process : World :=
  mkWorld [] "help" ["prog"] (fun _ => EmptyString)
    (fun _ elem => (default EmptyString (last elem), None)).

(** The command at index [i] of the heap. *)
Definition cmd_at (w : World) (i : nat) : Command :=
  default zero_Command (heap w !! i).

(** The value of the flag registered as [k], as [Get] shows it. *)
Definition flag_value (c : Command) (k : string) : option any :=
  (fun f => Get (Value f)) <$> formal c !! k.

(** [c := NewCommand(prog, ContinueOnError)] with [c.Int(&count, count, 5, ...)]. *)
Definition count_process : World :=
  final ((c ← NewCommand "prog" ContinueOnError;
          on c (Int "help" "count" 5 "how many" false)) bare_process).

(** A command with the bool flag [verbose]. *)
Definition verbose_process : World :=
  final ((c ← NewCommand "prog" ContinueOnError;
          on c (Bool "help" "verbose" false "say more" false)) bare_process).

(** A root command with the children [build] and [test]; [build] has the
    bool flag [verbose]. *)
Definition build_test_process : World :=
  final ((root ← NewCommand "prog" ContinueOnError;
          build ← NewChild root "build";
          _ ← NewChild root "test";
          on build (Bool "help" "verbose" false "say more" false)) bare_process).

(** A command with the short-eligible flags [a] (bool) and [n] (int). *)
Definition cluster_process : World :=
  final ((c ← NewCommand "prog" ContinueOnError;
          _ ← on c (Bool "help" "a" false "all" true);
          on c (Int "help" "n" 0 "number" true)) bare_process).

(** The command that [NewCommand(prog, ContinueOnError)] returns: its only
    flag is the help flag. *)
Definition help_only : Command :=
  cmd_at (final (NewCommand "prog" ContinueOnError bare_process)) 0.

(** The same command after [c.Int(&n, host, 0, ..., true)]. *)
Definition help_host : Command :=
  final (Int "help" "host" 0 "the host" true help_only).

(** [c.Init(name, errorPolicy)]. *)
Definition Init (name' : string) (policy : ErrorPolicy) : M Command unit :=
  update (fun c =>
    mkCommand (output c) (parent c) (actual c) (formal c) (Usage c) (Format c)
      name' (URL c) (children c) (args c) (aliases c) (parsed c) policy (lambda c)).

(** [m] keeps the invariant [I] of the command in every way it can end,
    and what it returns satisfies [Q]. *)
Definition post {A} (I : Command -> Prop) (Q : A -> Prop) (o : outcome Command A) : Prop :=
  I (final o) /\ forall a, res o = Ok a -> Q a.

Definition preserves {A} (I : Command -> Prop) (Q : A -> Prop) (m : M Command A) : Prop :=
  forall c, I c -> post I Q (m c).

(** Decimal digits that do not begin with a zero: the texts that
    [ParseUint] with base 0 reads in base ten. *)
Definition decimal_digits (ds : list Z) : Prop :=
  all_digits ds /\ exists c tl, ds = c :: tl /\ c <> 48.

(** A text that does not begin a number: it is empty, or its first byte
    is neither a decimal digit nor an underscore. *)
Definition no_number (s : string) : Prop :=
  match bytes s with
  | [] => True
  | c :: _ => ~ (48 <= c <= 57) /\ c <> 95
  end.

(** The text after the sign that [ParseInt] takes off. *)
Definition unsigned_part (s : string) : string :=
  match s with
  | String c s' => if (byte_of c =? 43) || (byte_of c =? 45) then s' else s
  | EmptyString => s
  end.

(** The texts [ParseBool] takes. *)
Definition bool_texts : list string :=
  ["1"; "t"; "T"; "true"; "TRUE"; "True"; "0"; "f"; "F"; "false"; "FALSE"; "False"].

(** No flag registered under the exact name [flagName] without being
    short-eligible stands beside a short-eligible flag whose first byte
    is [flagName]. *)
Definition unambiguous (m : gmap string Flag) (flagName : string) : Prop :=
  forall f k g, m !! flagName = Some f -> Short f = false ->
    m !! k = Some g -> Short g = true -> string_take 1 k <> flagName.

(** [flagName] names the flag stored under [k] in whatever order the loop
    of [accepts] goes through the map; [k] is empty when no flag is
    named.  Go fixes no order for [range] over a map, and may take another
    one at every call: a statement about every run of the program speaks
    of the names that resolve in this sense. *)
Definition resolves (c : Command) (flagName k : string) : Prop :=
  forall kvs, kvs ≡ₚ map_to_list (formal c) -> accepts_in kvs flagName = Ok k.

(** * Properties *)

Local Open Scope list_scope.

(** ** Bytes and strings *)

Lemma byte_of_ascii_of (z : Z) : 0 <= z < 256 -> byte_of (ascii_of z) = z.
Proof.
  intros Hz. unfold byte_of, ascii_of.
  rewrite N_ascii_embedding by lia. lia.
Qed.

Lemma strings_HasPrefix_app (p s : string) : strings_HasPrefix (p ++ s)%string p = true.
Proof.
  induction p as [|c p IH]; simpl; [done |].
  by rewrite Ascii.eqb_refl.
Qed.

Lemma string_drop_app (p s : string) : string_drop (String.length p) (p ++ s)%string = s.
Proof. induction p as [|c p IH]; simpl; auto. Qed.

Lemma strings_TrimPrefix_app (p s : string) : strings_TrimPrefix (p ++ s)%string p = s.
Proof.
  unfold strings_TrimPrefix. by rewrite strings_HasPrefix_app, string_drop_app.
Qed.

(** ** The integer conversions of [strconv] *)

Lemma dec_value_ge (ds : list Z) (n : Z) :
  all_digits ds -> 0 <= n -> n <= dec_value ds n.
Proof.
  revert n. induction ds as [|c ds IH]; intros n Hd Hn; simpl; [lia |].
  inversion Hd as [|? ? Hc Hds]; subst.
  etransitivity; [| apply IH; [done | lia]]. lia.
Qed.


(** The digit loop reads back a string of decimal digits whose value
    fits in 64 bits. *)
Lemma ParseUint_loop_digits (ds : list Z) (n : Z) :
  all_digits ds -> 0 <= n -> dec_value ds n <= maxUint64 ->
  ParseUint_loop true 10 (maxUint64 / 10 + 1) maxUint64 ds n false
  = inl (dec_value ds n, false).
Proof.
  revert n. induction ds as [|c ds IH]; intros n Hd Hn Hmax; simpl; [done |].
  inversion Hd as [|? ? Hc Hds]; subst.
  assert (Hge := dec_value_ge ds (n * 10 + (c - 48)) Hds ltac:(lia)).
  change (dec_value (c :: ds) n) with (dec_value ds (n * 10 + (c - 48))) in Hmax.
  unfold maxUint64 in *.
  replace (c =? 95) with false by lia. simpl.
  replace ((48 <=? c) && (c <=? 57)) with true by lia.
  replace (10 <=? c - 48) with false by lia.
  change ((2 ^ 64 - 1) / 10 + 1) with 1844674407370955162.
  replace (1844674407370955162 <=? n) with false by lia.
  unfold wrap64.
  rewrite (Z.mod_small (n * 10)) by lia.
  rewrite (Z.mod_small (n * 10 + (c - 48))) by lia.
  replace (n * 10 + (c - 48) <? n * 10) with false by lia.
  replace (2 ^ 64 - 1 <? n * 10 + (c - 48)) with false by lia. simpl.
  apply IH; [done | lia | done].
Qed.






Lemma ParseUint_loop_inr (base0 : bool) (base cutoff maxVal : Z) (s : list Z)
    (n : Z) (u : bool) (v : Z) (k : NumErrKind) :
  ParseUint_loop base0 base cutoff maxVal s n u = inr (v, k) ->
  (v = 0 /\ k = ErrSyntax) \/ (v = maxVal /\ k = ErrRange).
Proof.
  revert n u. induction s as [|c s IH]; intros n u; simpl; [done |].
  destruct ((c =? 95) && base0); [apply IH |].
  destruct (if (48 <=? c) && (c <=? 57) then _ else _) as [d|]; [| intros [= <- <-]; auto].
  destruct (base <=? d); [intros [= <- <-]; auto |].
  destruct (cutoff <=? n); [intros [= <- <-]; auto |].
  destruct (_ || _); [intros [= <- <-]; auto | apply IH].
Qed.

Lemma bytes_string_of_bytes (l : list Z) :
  Forall (fun c => 0 <= c < 256) l -> bytes (string_of_bytes l) = l.
Proof.
  induction 1 as [|c l Hc _ IH]; simpl; [done |].
  by rewrite byte_of_ascii_of, IH.
Qed.

Lemma all_digits_bytes (ds : list Z) :
  all_digits ds -> bytes (string_of_bytes ds) = ds.
Proof.
  intros Hd. apply bytes_string_of_bytes.
  eapply Forall_impl; [exact Hd |]. simpl. lia.
Qed.

Lemma byte_of_minus (c : ascii) : (byte_of c =? 45) = Ascii.eqb c "-".
Proof. by destruct c as [[] [] [] [] [] [] [] []]. Qed.

(** The digit loop stops with the largest value and a range error on
    decimal digits whose value does not fit in 64 bits. *)
Lemma ParseUint_loop_overflow (ds : list Z) (n : Z) :
  all_digits ds -> 0 <= n <= maxUint64 -> maxUint64 < dec_value ds n ->
  ParseUint_loop true 10 (maxUint64 / 10 + 1) maxUint64 ds n false
  = inr (maxUint64, ErrRange).
Proof.
  revert n. induction ds as [|c ds IH]; intros n Hd Hn Hmax; simpl.
  { unfold dec_value in Hmax. simpl in Hmax. lia. }
  inversion Hd as [|? ? Hc Hds]; subst.
  change (dec_value (c :: ds) n) with (dec_value ds (n * 10 + (c - 48))) in Hmax.
  unfold maxUint64 in *.
  replace (c =? 95) with false by lia. simpl.
  replace ((48 <=? c) && (c <=? 57)) with true by lia.
  replace (10 <=? c - 48) with false by lia.
  change ((2 ^ 64 - 1) / 10 + 1) with 1844674407370955162.
  destruct (Z.leb_spec 1844674407370955162 n) as [Hcut | Hcut]; [done |].
  unfold wrap64.
  rewrite (Z.mod_small (n * 10)) by lia.
  destruct (Z.ltb_spec (n * 10 + (c - 48)) (2 ^ 64)) as [Hfit | Hwrap].
  - rewrite (Z.mod_small (n * 10 + (c - 48))) by lia.
    replace (n * 10 + (c - 48) <? n * 10) with false by lia.
    replace (2 ^ 64 - 1 <? n * 10 + (c - 48)) with false by lia. simpl.
    apply IH; [done | lia | done].
  - replace ((n * 10 + (c - 48)) mod 2 ^ 64) with (n * 10 + (c - 48) - 2 ^ 64).
    2:{ apply Z.mod_unique with 1; lia. }
    by replace (n * 10 + (c - 48) - 2 ^ 64 <? n * 10) with true by lia.
Qed.

(** [ParseUint] on decimal digits: their value when it fits in 64 bits,
    the largest [uint64] and a range error when it does not. *)
Lemma ParseUint_decimal (ds : list Z) :
  decimal_digits ds ->
  strconv_ParseUint (string_of_bytes ds) 0 64 =
  if dec_value ds 0 <=? maxUint64 then (dec_value ds 0, None)
  else (maxUint64, Some (NumError "ParseUint" (string_of_bytes ds) ErrRange)).
Proof.
  intros [Hd (c0 & tl & -> & Hc0)].
  unfold strconv_ParseUint. rewrite (all_digits_bytes _ Hd).
  change (2 <=? 0) with false. change (0 =? 0) with true. cbn [andb].
  replace (c0 =? 48) with false by lia.
  change (64 =? 0) with false. cbv iota.
  change ((64 <? 0) || (64 <? 64)) with false. cbv iota.
  change (wrap64 (wrap64 (2 ^ 64) - 1)) with maxUint64.
  destruct (Z.leb_spec (dec_value (c0 :: tl) 0) maxUint64) as [Hfit | Hover].
  - by rewrite ParseUint_loop_digits; [| done | lia | done].
  - by rewrite ParseUint_loop_overflow; [| done | unfold maxUint64; lia | done].
Qed.

(** [ParseUint] on a text that does not begin a number. *)
Lemma ParseUint_no_number (s : string) :
  no_number s ->
  strconv_ParseUint s 0 64 = (0, Some (NumError "ParseUint" s ErrSyntax)).
Proof.
  unfold no_number, strconv_ParseUint.
  destruct (bytes s) as [|c0 tl]; [done |]. intros [Hnd Hnu].
  change (2 <=? 0) with false. change (0 =? 0) with true. cbn [andb].
  replace (c0 =? 48) with false by lia.
  change (64 =? 0) with false. cbv iota.
  change ((64 <? 0) || (64 <? 64)) with false. cbv iota.
  cbn [ParseUint_loop].
  replace (c0 =? 95) with false by lia. cbn [andb].
  replace ((48 <=? c0) && (c0 <=? 57)) with false by lia.
  destruct ((97 <=? lower c0) && (lower c0 <=? 122)) eqn:Hl; [| done].
  by replace (10 <=? lower c0 - 97 + 10) with true by lia.
Qed.

(** A failing [ParseUint(s, 0, 64)] returns 0 beside a syntax error and
    the largest [uint64] beside a range error. *)
Lemma ParseUint_error (s : string) (v : Z) (e : error) :
  strconv_ParseUint s 0 64 = (v, Some e) ->
  (v = 0 /\ e = NumError "ParseUint" s ErrSyntax) \/
  (v = maxUint64 /\ e = NumError "ParseUint" s ErrRange).
Proof.
  unfold strconv_ParseUint. destruct (bytes s) as [|c0 tl]; [intros [= <- <-]; auto |].
  change (2 <=? 0) with false. change (0 =? 0) with true. cbn [andb].
  set (p := if c0 =? 48 then _ else _).
  assert (exists b ds, p = Some (b, ds)) as (b & ds & ->).
  { subst p. destruct (c0 =? 48); [| eauto].
    destruct tl as [|c1 [|c2 tl]]; eauto.
    destruct (lower c1 =? 98); [eauto |].
    destruct (lower c1 =? 111); [eauto |].
    destruct (lower c1 =? 120); eauto. }
  change (64 =? 0) with false. cbv iota.
  change ((64 <? 0) || (64 <? 64)) with false. cbv iota.
  change (wrap64 (wrap64 (2 ^ 64) - 1)) with maxUint64.
  destruct (ParseUint_loop _ _ _ _ _ _ _) as [[n us] | [v' k]] eqn:Hl.
  - destruct (us && _); [intros [= <- <-]; auto | done].
  - intros [= <- <-].
    destruct (ParseUint_loop_inr _ _ _ _ _ _ _ _ _ Hl) as [[-> ->] | [-> ->]]; auto.
Qed.

(** The clamping of [ParseInt] on the magnitude [un]. *)
Lemma ParseInt_clamp (s : string) (neg : bool) (un v : Z) (e : error) :
  (if negb neg && (2 ^ 63 <=? un)
   then (to_int64 (2 ^ 63 - 1), Some (NumError "ParseInt" s ErrRange))
   else if neg && (2 ^ 63 <? un)
     then (to_int64 (- to_int64 (2 ^ 63)), Some (NumError "ParseInt" s ErrRange))
     else (if neg then to_int64 (- to_int64 un) else to_int64 un, None)) = (v, Some e) ->
  v = (if neg then - 2 ^ 63 else 2 ^ 63 - 1) /\ e = NumError "ParseInt" s ErrRange.
Proof.
  destruct neg; cbn [negb andb].
  - destruct (2 ^ 63 <? un); [by intros [= <- <-] | done].
  - destruct (2 ^ 63 <=? un); [by intros [= <- <-] | done].
Qed.

(** A failing [ParseInt(s, 0, 64)] returns 0 beside a syntax error;
    beside a range error it returns the bound of [int64] on the side of the
    sign: the least [int64] for a text that begins with a minus sign, the
    largest otherwise. *)
Lemma ParseInt_error (s : string) (v : Z) (e : error) :
  strconv_ParseInt s 0 64 = (v, Some e) ->
  (v = 0 /\ e = NumError "ParseInt" s ErrSyntax) \/
  (v = (if strings_HasPrefix s "-" then - 2 ^ 63 else 2 ^ 63 - 1) /\
   e = NumError "ParseInt" s ErrRange).
Proof.
  unfold strconv_ParseInt. destruct s as [|c s']; [intros [= <- <-]; auto |].
  destruct (strconv_ParseUint _ 0 64) as [un err] eqn:HP.
  change (64 =? 0) with false. cbv iota.
  change (wrap64 (2 ^ (64 - 1))) with (2 ^ 63).
  cbn [strings_HasPrefix]. rewrite <- byte_of_minus.
  set (neg := byte_of c =? 45) in *.
  replace (if (if neg then true else false) then - 2 ^ 63 else 2 ^ 63 - 1)
    with (if neg then - 2 ^ 63 else 2 ^ 63 - 1) by (by destruct neg).
  destruct err as [e' |]; [| intros HH; right; by apply ParseInt_clamp in HH].
  destruct (ParseUint_error _ _ _ HP) as [[-> ->] | [-> ->]].
  - intros [= <- <-]. auto.
  - intros HH; right; by apply ParseInt_clamp in HH.
Qed.

(** [ParseInt] on a text whose part after the sign does not begin a
    number. *)
Lemma ParseInt_no_number (s : string) :
  no_number (unsigned_part s) ->
  strconv_ParseInt s 0 64 = (0, Some (NumError "ParseInt" s ErrSyntax)).
Proof.
  unfold strconv_ParseInt, unsigned_part. destruct s as [|c s']; [done |].
  intros Hn. by rewrite (ParseUint_no_number _ Hn).
Qed.

(** [ParseInt] on decimal digits after an optional plus sign, when their
    value is above the largest [int64]. *)
Lemma ParseInt_decimal_above (ds : list Z) (s : string) :
  decimal_digits ds -> 2 ^ 63 <= dec_value ds 0 ->
  s = string_of_bytes ds \/ s = String "+" (string_of_bytes ds) ->
  strconv_ParseInt s 0 64 = (2 ^ 63 - 1, Some (NumError "ParseInt" s ErrRange)).
Proof.
  intros Hdec Hv Hs.
  assert (exists c s', s = String c s' /\ (byte_of c =? 45) = false /\
            (if (byte_of c =? 43) || (byte_of c =? 45) then s' else s) = string_of_bytes ds)
    as (c & s' & Hs' & Hm & Hdig).
  { destruct Hs as [-> | ->].
    - destruct Hdec as [Hd (c0 & tl & -> & Hc0)].
      inversion Hd as [|? ? Hc _]; subst. simpl.
      eexists _, _. split; [reflexivity |].
      rewrite byte_of_ascii_of by lia.
      split; [lia |]. by replace ((c0 =? 43) || (c0 =? 45)) with false by lia.
    - by eexists _, _. }
  clear Hs. subst s. unfold strconv_ParseInt. rewrite Hm.
  rewrite Hm in Hdig. rewrite Hdig, (ParseUint_decimal _ Hdec).
  change (64 =? 0) with false. cbv iota.
  change (wrap64 (2 ^ (64 - 1))) with (2 ^ 63). cbn [negb andb].
  destruct (Z.leb_spec (dec_value ds 0) maxUint64) as [Hfit | Hover].
  - by replace (2 ^ 63 <=? dec_value ds 0) with true by lia.
  - done.
Qed.

(** [ParseInt] on decimal digits after a minus sign, when their value is
    above the magnitude of the least [int64]. *)
Lemma ParseInt_decimal_below (ds : list Z) :
  decimal_digits ds -> 2 ^ 63 < dec_value ds 0 ->
  strconv_ParseInt (String "-" (string_of_bytes ds)) 0 64
  = (- 2 ^ 63, Some (NumError "ParseInt" (String "-" (string_of_bytes ds)) ErrRange)).
Proof.
  intros Hdec Hv. unfold strconv_ParseInt.
  change (byte_of "-" =? 45) with true. change (byte_of "-" =? 43) with false.
  cbn [orb]. rewrite (ParseUint_decimal _ Hdec).
  change (64 =? 0) with false. cbv iota.
  change (wrap64 (2 ^ (64 - 1))) with (2 ^ 63). cbn [negb andb].
  destruct (Z.leb_spec (dec_value ds 0) maxUint64) as [Hfit | Hover].
  - by replace (2 ^ 63 <? dec_value ds 0) with true by lia.
  - done.
Qed.

(** ** The value boxes *)

Lemma boolValue_Set_error (s : string) (b : bool) (e : error) :
  boolValue_Set s = (b, Some e) -> b = false /\ e = errParse.
Proof.
  unfold boolValue_Set, strconv_ParseBool.
  repeat case_bool_decide; by intros [= <- <-].
Qed.

Lemma boolValue_Set_other (s : string) :
  s ∉ bool_texts -> boolValue_Set s = (false, Some errParse).
Proof.
  unfold boolValue_Set, strconv_ParseBool, bool_texts. intros Hs.
  rewrite !bool_decide_eq_false_2; [done | |];
    intros Hin; apply Hs; rewrite !elem_of_cons in Hin; rewrite !elem_of_cons; tauto.
Qed.

(** C6, amended.  A failing [set(text)] does not keep the previous value:
    the box then holds what its conversion returned beside the error.

    - Every failing [set]: a bool box holds false; an [int] or [int64] box
      holds the first component of [strconv.ParseInt(text, 0, 64)], which
      is 0 beside [errParse] and, beside [errRange], the least [int64] for
      a text that begins with a minus sign and the largest [int64]
      otherwise; a [uint] or [uint64] box holds the first component of
      [strconv.ParseUint(text, 0, 64)], 0 beside [errParse] and the largest
      [uint64] beside [errRange]; a [float64] or duration box holds the
      value the library returned; a string box never fails; a function box
      holds no value, and the error is the callback's.
    - Which texts fail in which way: decimal digits whose value is above
      the largest [int64], with or without a plus sign, leave the largest
      [int64] and [errRange] in an [int] or [int64] box; a minus sign and
      decimal digits whose value is above 2^63 leave the least [int64] and
      [errRange]; decimal digits whose value is above the largest [uint64]
      leave the largest [uint64] and [errRange] in a [uint] or [uint64]
      box; a text that does not begin a number leaves 0 and [errParse]; a
      text that [ParseBool] does not take leaves false and [errParse]. *)
Theorem Set_failure_stores_conversion_result :
  (forall (v v' : Getter) (s : string) (e : error),
     Set_ v s = (v', Some e) ->
     match v with
     | boolValue _ =>
         v' = boolValue (fst (strconv_ParseBool s)) /\ v' = boolValue false /\ e = errParse
     | intValue _ =>
         v' = intValue (fst (strconv_ParseInt s 0 64)) /\
         ((v' = intValue 0 /\ e = errParse) \/
          (v' = intValue (if strings_HasPrefix s "-" then - 2 ^ 63 else 2 ^ 63 - 1) /\
           e = errRange))
     | int64Value _ =>
         v' = int64Value (fst (strconv_ParseInt s 0 64)) /\
         ((v' = int64Value 0 /\ e = errParse) \/
          (v' = int64Value (if strings_HasPrefix s "-" then - 2 ^ 63 else 2 ^ 63 - 1) /\
           e = errRange))
     | uintValue _ =>
         v' = uintValue (fst (strconv_ParseUint s 0 64)) /\
         ((v' = uintValue 0 /\ e = errParse) \/
          (v' = uintValue maxUint64 /\ e = errRange))
     | uint64Value _ =>
         v' = uint64Value (fst (strconv_ParseUint s 0 64)) /\
         ((v' = uint64Value 0 /\ e = errParse) \/
          (v' = uint64Value maxUint64 /\ e = errRange))
     | stringValue _ => False
     | float64Value lib _ =>
         v' = float64Value lib (fst (strconv_ParseFloat lib s 64)) /\
         numError_if (snd (strconv_ParseFloat lib s 64)) = Some e
     | durationValue lib _ =>
         v' = durationValue lib (fst (time_ParseDuration lib s)) /\ e = errParse
     | funcValue fn => v' = funcValue fn /\ fn s = Some e
     end) /\
  (forall (box : Z -> Getter) (i : Z) (ds : list Z) (s : string),
     box = intValue \/ box = int64Value ->
     decimal_digits ds -> 2 ^ 63 <= dec_value ds 0 ->
     s = string_of_bytes ds \/ s = String "+" (string_of_bytes ds) ->
     Set_ (box i) s = (box (2 ^ 63 - 1), Some errRange)) /\
  (forall (box : Z -> Getter) (i : Z) (ds : list Z),
     box = intValue \/ box = int64Value ->
     decimal_digits ds -> 2 ^ 63 < dec_value ds 0 ->
     Set_ (box i) (String "-" (string_of_bytes ds)) = (box (- 2 ^ 63), Some errRange)) /\
  (forall (box : Z -> Getter) (u : Z) (ds : list Z),
     box = uintValue \/ box = uint64Value ->
     decimal_digits ds -> maxUint64 < dec_value ds 0 ->
     Set_ (box u) (string_of_bytes ds) = (box maxUint64, Some errRange)) /\
  (forall (box : Z -> Getter) (i : Z) (s : string),
     box = intValue \/ box = int64Value ->
     no_number (unsigned_part s) ->
     Set_ (box i) s = (box 0, Some errParse)) /\
  (forall (box : Z -> Getter) (u : Z) (s : string),
     box = uintValue \/ box = uint64Value ->
     no_number s ->
     Set_ (box u) s = (box 0, Some errParse)) /\
  (forall (b : bool) (s : string),
     s ∉ bool_texts ->
     Set_ (boolValue b) s = (boolValue false, Some errParse)).
Proof.
  split_and!.
  - intros v v' s e.
    destruct v as [b | i | i | u | u | x | lib f | lib d | fn]; simpl.
    + unfold boolValue_Set at 1.
      destruct (strconv_ParseBool s) as [b' err] eqn:HS. intros [= <- Herr].
      assert (boolValue_Set s = (b', Some e)) as HS'.
      { unfold boolValue_Set. by rewrite HS, Herr. }
      by destruct (boolValue_Set_error _ _ _ HS') as [-> ->].
    + unfold intValue_Set, strconv_IntSize.
      destruct (strconv_ParseInt s 0 64) as [i' [e' |]] eqn:HP; [| done].
      intros [= <- <-]. split; [done |].
      destruct (ParseInt_error _ _ _ HP) as [[-> ->] | [-> ->]]; auto.
    + unfold int64Value_Set.
      destruct (strconv_ParseInt s 0 64) as [i' [e' |]] eqn:HP; [| done].
      intros [= <- <-]. split; [done |].
      destruct (ParseInt_error _ _ _ HP) as [[-> ->] | [-> ->]]; auto.
    + unfold uintValue_Set, strconv_IntSize.
      destruct (strconv_ParseUint s 0 64) as [u' [e' |]] eqn:HP; [| done].
      intros [= <- <-]. split; [done |].
      destruct (ParseUint_error _ _ _ HP) as [[-> ->] | [-> ->]]; auto.
    + unfold uint64Value_Set.
      destruct (strconv_ParseUint s 0 64) as [u' [e' |]] eqn:HP; [| done].
      intros [= <- <-]. split; [done |].
      destruct (ParseUint_error _ _ _ HP) as [[-> ->] | [-> ->]]; auto.
    + done.
    + unfold float64Value_Set. destruct (strconv_ParseFloat lib s 64) as [f' err].
      by intros [= <- <-].
    + unfold durationValue_Set.
      destruct (time_ParseDuration lib s) as [d' [e' |]]; [| done].
      by intros [= <- <-].
    + by intros [= <- ->].
  - intros box i ds s Hbox Hdec Hv Hs.
    pose proof (ParseInt_decimal_above ds s Hdec Hv Hs) as HP.
    destruct Hbox as [-> | ->]; simpl;
      unfold intValue_Set, int64Value_Set, strconv_IntSize; by rewrite HP.
  - intros box i ds Hbox Hdec Hv.
    pose proof (ParseInt_decimal_below ds Hdec Hv) as HP.
    destruct Hbox as [-> | ->]; simpl;
      unfold intValue_Set, int64Value_Set, strconv_IntSize; by rewrite HP.
  - intros box u ds Hbox Hdec Hv.
    pose proof (ParseUint_decimal ds Hdec) as HP.
    replace (dec_value ds 0 <=? maxUint64) with false in HP by lia.
    destruct Hbox as [-> | ->]; simpl;
      unfold uintValue_Set, uint64Value_Set, strconv_IntSize; by rewrite HP.
  - intros box i s Hbox Hn.
    pose proof (ParseInt_no_number s Hn) as HP.
    destruct Hbox as [-> | ->]; simpl;
      unfold intValue_Set, int64Value_Set, strconv_IntSize; by rewrite HP.
  - intros box u s Hbox Hn.
    pose proof (ParseUint_no_number s Hn) as HP.
    destruct Hbox as [-> | ->]; simpl;
      unfold uintValue_Set, uint64Value_Set, strconv_IntSize; by rewrite HP.
  - intros b s Hs. simpl. by rewrite (boolValue_Set_other s Hs).
Qed.

(** C6 as stated fails: an int box holding 5 holds 0 after the failing
    [Set] on a malformed text. *)
Lemma intValue_Set_malformed_overwrites :
  Set_ (intValue 5) "abc" = (intValue 0, Some errParse) /\ intValue 0 <> intValue 5.
Proof. split; [reflexivity | discriminate]. Qed.

Lemma Set_failure_stores_conversion_result_witness :
  Set_ (intValue 5) "abc" = (intValue 0, Some errParse) /\
  Set_ (intValue 5) "9223372036854775808" = (intValue (2 ^ 63 - 1), Some errRange) /\
  Set_ (int64Value 5) "-9223372036854775809" = (int64Value (- 2 ^ 63), Some errRange) /\
  Set_ (uint64Value 5) "18446744073709551616" = (uint64Value maxUint64, Some errRange) /\
  Set_ (uintValue 5) "-1" = (uintValue 0, Some errParse) /\
  Set_ (boolValue true) "yes" = (boolValue false, Some errParse).
Proof.
  destruct Set_failure_stores_conversion_result
    as (_ & Habove & Hbelow & Huint & Hint0 & Huint0 & Hbool).
  assert (forall s c tl, bytes s = c :: tl -> c <> 48 ->
            Forall (fun c => (48 <=? c) = true /\ (c <=? 57) = true) (bytes s) ->
            decimal_digits (bytes s)) as Hdec.
  { intros s c tl Hs Hc HF. split; [| by exists c, tl].
    eapply Forall_impl; [exact HF |]. simpl. lia. }
  split_and!.
  - apply (Hint0 intValue 5 "abc"); [by left |].
    change (~ (48 <= 97 <= 57) /\ 97 <> 95). lia.
  - apply (Habove intValue 5 (bytes "9223372036854775808")); [by left | | by vm_compute | by left].
    eapply Hdec; [reflexivity | done | repeat constructor].
  - refine (Hbelow int64Value 5 (bytes "9223372036854775809") _ _ _); [by right | | by vm_compute].
    eapply Hdec; [reflexivity | done | repeat constructor].
  - refine (Huint uint64Value 5 (bytes "18446744073709551616") _ _ _); [by right | | by vm_compute].
    eapply Hdec; [reflexivity | done | repeat constructor].
  - apply (Huint0 uintValue 5 "-1"); [by left |].
    change (~ (48 <= 45 <= 57) /\ 45 <> 95). lia.
  - apply Hbool. unfold bool_texts. rewrite !elem_of_cons, elem_of_nil.
    intros H. repeat destruct H as [H | H]; done.
Defined.




(** ** Running a method *)

Lemma run_bind {S A B} (m : M S A) (f : A -> M S B) (s : S) :
  (m ≫= f) s =
  match res (m s) with
  | Ok a => Outcome (res (f a (final (m s)))) (final (f a (final (m s))))
              (lines (m s) ++ lines (f a (final (m s))))
  | Panic v => Outcome (Panic v) (final (m s)) (lines (m s))
  | Exit code => Outcome (Exit code) (final (m s)) (lines (m s))
  end.
Proof. reflexivity. Qed.

Lemma run_bind_ok {S A B} (m : M S A) (f : A -> M S B) (s s' : S) (a : A) :
  m s = Outcome (Ok a) s' [] -> (m ≫= f) s = f a s'.
Proof. intros H. rewrite run_bind, H. simpl. by destruct (f a s'). Qed.

Lemma bind_get {S B} (f : S -> M S B) (s : S) : (get ≫= f) s = f s s.
Proof. by apply run_bind_ok. Qed.

Lemma bind_put {S B} (s' : S) (f : unit -> M S B) (s : S) : (put s' ≫= f) s = f tt s'.
Proof. by apply run_bind_ok. Qed.

Lemma bind_ret {S A B} (a : A) (f : A -> M S B) (s : S) : (mret a ≫= f) s = f a s.
Proof. by apply run_bind_ok. Qed.

Lemma bind_lift_Ok {S A B} (a : A) (f : A -> M S B) (s : S) :
  (lift_result (Ok a) ≫= f) s = f a s.
Proof. by apply run_bind_ok. Qed.

Lemma on_run {A} (c : nat) (m : M Command A) (w : World) (cmd : Command) :
  heap w !! c = Some cmd ->
  on c m w = Outcome (res (m cmd)) (with_heap w (<[c := final (m cmd)]> (heap w)))
               (lines (m cmd)).
Proof. intros H. unfold on. by rewrite H. Qed.

Lemma Command_eta (c : Command) :
  mkCommand (output c) (parent c) (actual c) (formal c) (Usage c) (Format c)
    (name c) (URL c) (children c) (args c) (aliases c) (parsed c) (errorPolicy c)
    (lambda c) = c.
Proof. by destruct c. Qed.

Lemma Flag_with_Value_id (f : Flag) : Flag_with_Value f (Value f) = f.
Proof. by destruct f. Qed.

(** ** [Handle] *)

(** C4, on the code.  Under [LogOnError] a call of [Handle] with an error
    prints nothing and panics with the text of an unrecognized policy:
    its [switch] has no case for that policy.  Without an error [Handle]
    does nothing, whatever the policy. *)
Theorem Handle_LogOnError_panics (c : Command) (e : error) :
  errorPolicy c = LogOnError ->
  Handle (Some e) c = Outcome (Panic (panic_msg msg_unrecognized_policy)) c [] /\
  Handle None c = Outcome (Ok tt) c [].
Proof.
  intros Hp. split; [| reflexivity].
  unfold Handle. rewrite run_bind. simpl. by rewrite Hp.
Qed.

Lemma Handle_LogOnError_panics_witness :
  errorPolicy (final (Init "prog" LogOnError zero_Command)) = LogOnError /\
  Handle (Some errParse) (final (Init "prog" LogOnError zero_Command))
  = Outcome (Panic (panic_msg msg_unrecognized_policy))
      (final (Init "prog" LogOnError zero_Command)) [].
Proof.
  split; [reflexivity |].
  exact (proj1 (Handle_LogOnError_panics
                  (final (Init "prog" LogOnError zero_Command)) errParse eq_refl)).
Defined.

(** The three policies that [Handle] knows. *)
Lemma Handle_known_policies (c : Command) (e : error) :
  (errorPolicy c = ContinueOnError ->
   Handle (Some e) c = Outcome (Ok tt) c [print_err os_Stderr e]) /\
  (errorPolicy c = ExitOnError ->
   Handle (Some e) c = Outcome (Exit 1) c [print_err os_Stderr e]) /\
  (errorPolicy c = PanicOnError ->
   Handle (Some e) c = Outcome (Panic (panic_error e)) c []).
Proof.
  split_and!; intros Hp; unfold Handle; rewrite run_bind; simpl; by rewrite Hp.
Qed.

(** ** [parseOne], one token at a time *)

Lemma accepts_with_args (c : Command) (a : list string) (flagName : string) :
  accepts (with_args c a) flagName = accepts c flagName.
Proof. reflexivity. Qed.

Lemma set_flag_value_run (c : Command) (k s : string) (flag : Flag) :
  formal c !! k = Some flag ->
  set_flag_value k s c =
  Outcome (Ok (snd (Set_ (Value flag) s)))
    (with_formal c (<[k := Flag_with_Value flag (fst (Set_ (Value flag) s))]> (formal c))) [].
Proof.
  intros Hk. unfold set_flag_value. rewrite bind_get, Hk.
  destruct (Set_ (Value flag) s) as [v err]. by rewrite bind_put.
Qed.

(** A token [--name] without [=], where [name] resolves to a registered
    flag: the test [flag.Value.Get().(boolFlag)] looks at the value that
    [Get] returns, not at the box, so it holds for a function box only.
    There the callback is called on the text true; every other flag, a
    boolean one too, gets the missing-value error and is left as it was. *)
Lemma parseOne_long_flag (c : Command) (flagName k : string) (rest : list string)
    (flag : Flag) :
  args c = ("--" ++ flagName)%string :: rest ->
  strings_Contains ("--" ++ flagName) "=" = false ->
  accepts c flagName = Ok k -> formal c !! k = Some flag ->
  parseOne c =
  match Value flag with
  | funcValue _ => Outcome (Ok (None, true, None)) (with_args c rest) []
  | _ => Outcome (Ok (None, false, Some (Errorf (msg_missing_value flagName))))
           (with_args c rest) []
  end.
Proof.
  intros Hargs Heq Hacc Hk.
  unfold parseOne. rewrite bind_get, Hargs, bind_put.
  rewrite Heq. rewrite strings_HasPrefix_app, strings_TrimPrefix_app.
  rewrite bind_get, accepts_with_args, Hacc, bind_lift_Ok.
  cbn [formal with_args]. rewrite Hk.
  destruct (Value flag) eqn:Hv; try reflexivity.
  cbn [Get implements_boolFlag].
  erewrite run_bind_ok; [| by apply set_flag_value_run].
  rewrite Hv. cbn [Set_ fst snd formal with_args].
  rewrite <- Hv, Flag_with_Value_id, insert_id by done.
  reflexivity.
Qed.

(** C2, on the code.  For a boolean flag the token [--name] is refused
    with the missing-value error; the flag keeps its value and nothing is
    recorded in the actual set. *)
Theorem parseOne_long_boolean_flag (c : Command) (flagName k : string)
    (rest : list string) (flag : Flag) :
  args c = ("--" ++ flagName)%string :: rest ->
  strings_Contains ("--" ++ flagName) "=" = false ->
  accepts c flagName = Ok k -> formal c !! k = Some flag ->
  IsBool (Value flag) = true ->
  parseOne c =
  Outcome (Ok (None, false, Some (Errorf (msg_missing_value flagName))))
    (with_args c rest) [].
Proof.
  intros Hargs Heq Hacc Hk Hb.
  rewrite (parseOne_long_flag c flagName k rest flag) by done.
  by destruct (Value flag).
Qed.

Lemma parseOne_long_boolean_flag_witness :
  let c := with_args (cmd_at verbose_process 0) ["--verbose"] in
  flag_value c "verbose" = Some (any_bool false) /\
  parseOne c =
  Outcome (Ok (None, false, Some (Errorf (msg_missing_value "verbose"))))
    (with_args c []) [].
Proof.
  split; [reflexivity |].
  exact (parseOne_long_boolean_flag
           (with_args (cmd_at verbose_process 0) ["--verbose"]) "verbose" "verbose" []
           (mkFlag "verbose" "say more" "false" false (boolValue false))
           eq_refl eq_refl eq_refl eq_refl eq_refl).
Defined.

(** The second half of C2 holds for every box with a value that is not
    boolean. *)
Lemma parseOne_long_value_flag (c : Command) (flagName k : string)
    (rest : list string) (flag : Flag) :
  args c = ("--" ++ flagName)%string :: rest ->
  strings_Contains ("--" ++ flagName) "=" = false ->
  accepts c flagName = Ok k -> formal c !! k = Some flag ->
  IsBool (Value flag) = false ->
  implements_boolFlag (Get (Value flag)) = false ->
  parseOne c =
  Outcome (Ok (None, false, Some (Errorf (msg_missing_value flagName))))
    (with_args c rest) [].
Proof.
  intros Hargs Heq Hacc Hk Hb Hf.
  rewrite (parseOne_long_flag c flagName k rest flag) by done.
  by destruct (Value flag).
Qed.

(** A bare [-] counts as a flag that was seen: it is taken off the
    stream and the scan goes on. *)
Lemma parseOne_dash (c : Command) (rest : list string) :
  args c = "-" :: rest ->
  parseOne c = Outcome (Ok (None, true, None)) (with_args c rest) [].
Proof.
  intros Hargs. unfold parseOne. rewrite bind_get, Hargs, bind_put. reflexivity.
Qed.

(** A token without [=] that does not start with [-] is taken off the
    stream and ends the scan; it is not kept. *)
Lemma parseOne_free (c : Command) (arg : string) (rest : list string) :
  args c = arg :: rest ->
  strings_Contains arg "=" = false -> strings_HasPrefix arg "-" = false ->
  parseOne c = Outcome (Ok (None, false, None)) (with_args c rest) [].
Proof.
  intros Hargs Heq Hdash. unfold parseOne. rewrite bind_get, Hargs, bind_put.
  rewrite Heq.
  assert (strings_HasPrefix arg "--" = false) as ->.
  { destruct arg as [|a arg]; [done |]. simpl in *. by destruct (Ascii.eqb a "-"). }
  by rewrite Hdash.
Qed.

(** The terminator [--] is read as the long flag with the empty name. *)
Lemma parseOne_terminator (c : Command) (rest : list string) (k : string) :
  args c = "--" :: rest ->
  accepts c EmptyString = Ok k -> formal c !! k = None ->
  parseOne c =
  Outcome (Ok (None, false, Some (Errorf (msg_unknown_flag EmptyString))))
    (with_args c rest) [].
Proof.
  intros Hargs Hacc Hk. unfold parseOne. rewrite bind_get, Hargs, bind_put.
  change (strings_Contains "--" "=") with false. cbv iota.
  change (strings_HasPrefix "--" "--") with true. cbv iota.
  change (strings_TrimPrefix "--" "--") with EmptyString.
  rewrite bind_get, accepts_with_args, Hacc, bind_lift_Ok.
  cbn [formal with_args]. by rewrite Hk.
Qed.

(** ** Invariants of a command across a method *)

Section Invariants.
Context (I : Command -> Prop).

Lemma post_bind {A B} (Q1 : A -> Prop) (Q2 : B -> Prop) (m : M Command A)
    (f : A -> M Command B) (c : Command) :
  post I Q1 (m c) ->
  (forall a c', I c' -> Q1 a -> post I Q2 (f a c')) ->
  post I Q2 ((m ≫= f) c).
Proof.
  intros [HI HQ] Hf. rewrite run_bind.
  destruct (res (m c)) as [a | v | code] eqn:Hres; [| by split | by split].
  destruct (Hf a (final (m c)) HI (HQ a eq_refl)) as [HI' HQ'].
  split; [done |]. simpl. intros b Hb. by apply HQ'.
Qed.

Lemma post_ret {A} (Q : A -> Prop) (a : A) (c : Command) :
  I c -> Q a -> post I Q ((mret a : M Command A) c).
Proof. intros HI HQ. split; [done |]. by intros ? [= <-]. Qed.

Lemma post_panic {A} (Q : A -> Prop) (v : panic_value) (c : Command) :
  I c -> post I Q (panic v c).
Proof. by split. Qed.

Lemma post_lift {A} (Q : A -> Prop) (r : result A) (c : Command) :
  I c -> (forall a, r = Ok a -> Q a) -> post I Q (lift_result r c).
Proof. by split. Qed.

(** Storing a value in a registered flag keeps every invariant that does
    not look at the values. *)
Lemma post_set_flag_value (k s : string) (c : Command) :
  (forall c k f v, I c -> formal c !! k = Some f ->
     I (with_formal c (<[k := Flag_with_Value f v]> (formal c)))) ->
  I c -> post I (fun _ : option error => True) (set_flag_value k s c).
Proof.
  intros Hclosed HI. unfold set_flag_value. rewrite bind_get.
  destruct (formal c !! k) as [flag |] eqn:Hk; [| by apply post_panic].
  destruct (Set_ (Value flag) s) as [v err]. rewrite bind_put.
  apply post_ret; [by apply Hclosed | done].
Qed.

(** [parseOne] keeps every invariant that does not look at the values of
    the flags and that holds again when the first token is taken off the
    stream; and it never returns a child. *)
Lemma parseOne_cluster_preserves (runes : list (Z * Z)) (n : Z) :
  (forall c k f v, I c -> formal c !! k = Some f ->
     I (with_formal c (<[k := Flag_with_Value f v]> (formal c)))) ->
  (forall c, I c -> I (with_args c (List.tl (args c)))) ->
  preserves I (fun r : parsed_one => fst (fst r) = None) (parseOne_cluster runes n).
Proof.
  intros Hval Htl.
  induction runes as [|[i r] runes IH]; intros c HI; simpl.
  - by apply post_ret.
  - rewrite bind_get.
    apply (post_bind (fun _ => True)); [by apply post_lift |].
    intros k c' HI' _.
    destruct (formal c !! k) as [flag |]; [| by apply post_ret].
    destruct (IsBool (Value flag)).
    { apply (post_bind (fun _ => True)); [by apply post_set_flag_value |].
      intros _ c'' HI'' _. by apply IH. }
    destruct (i =? n - 1); [| by apply post_ret].
    destruct (args c) as [|a args']; [by apply post_ret |].
    apply (post_bind (fun _ => True)); [by apply post_set_flag_value |].
    intros _ c'' HI'' _. rewrite bind_get, bind_put.
    apply IH. by apply Htl.
Qed.

Lemma parseOne_post (c : Command) :
  (forall c k f v, I c -> formal c !! k = Some f ->
     I (with_formal c (<[k := Flag_with_Value f v]> (formal c)))) ->
  (forall c, I c -> I (with_args c (List.tl (args c)))) ->
  (args c = [] -> I c) ->
  I (with_args c (List.tl (args c))) ->
  post I (fun r : parsed_one => fst (fst r) = None) (parseOne c).
Proof.
  intros Hval Htl Hnil HI0. unfold parseOne. rewrite bind_get.
  destruct (args c) as [|arg rest]; [by apply post_ret; auto |].
  rewrite bind_put. cbn [List.tl] in HI0.
  destruct (strings_Contains arg "=").
  { apply (post_bind (fun _ => True)).
    { unfold index_strings. destruct (_ !! _); [by apply post_ret | by apply post_panic]. }
    intros flagName c1 HI1 _.
    apply (post_bind (fun _ => True)).
    { unfold index_strings. destruct (_ !! _); [by apply post_ret | by apply post_panic]. }
    intros flagValue c2 HI2 _. rewrite bind_get.
    apply (post_bind (fun _ => True)); [by apply post_lift |].
    intros k c3 HI3 _.
    destruct (formal c2 !! k) as [flag |]; [| by apply post_ret].
    destruct (negb (IsBool (Value flag))); [| by apply post_ret].
    apply (post_bind (fun _ => True)); [by apply post_set_flag_value |].
    intros err c4 HI4 _. destruct err; by apply post_ret. }
  destruct (strings_HasPrefix arg "--").
  { rewrite bind_get.
    apply (post_bind (fun _ => True)); [by apply post_lift |].
    intros k c1 HI1 _.
    destruct (formal (with_args c rest) !! k) as [flag |]; [| by apply post_ret].
    destruct (implements_boolFlag (Get (Value flag))); [| by apply post_ret].
    apply (post_bind (fun _ => True)); [by apply post_set_flag_value |].
    intros _ c2 HI2 _. by apply post_ret. }
  destruct (strings_HasPrefix arg "-"); [| by apply post_ret].
  by apply parseOne_cluster_preserves.
Qed.

Lemma parseOne_preserves :
  (forall c k f v, I c -> formal c !! k = Some f ->
     I (with_formal c (<[k := Flag_with_Value f v]> (formal c)))) ->
  (forall c a, I c -> I (with_args c a)) ->
  preserves I (fun r : parsed_one => fst (fst r) = None) parseOne.
Proof. intros Hval Hargs c HI. apply parseOne_post; auto. Qed.

End Invariants.

(** The dispatcher never selects a child command: the first component of
    what [parseOne] returns is always nil. *)
Lemma parseOne_child_nil (c : Command) (child : option nat) (seen : bool)
    (err : option error) :
  res (parseOne c) = Ok (child, seen, err) -> child = None.
Proof.
  intros Hres.
  destruct (parseOne_preserves (fun _ => True)) with (c := c) as [_ HQ]; try done.
  by apply (HQ _ Hres).
Qed.

(** The dispatcher never writes the actual set. *)
Lemma parseOne_keeps_actual (c : Command) : actual (final (parseOne c)) = actual c.
Proof.
  destruct (parseOne_preserves (fun c' => actual c' = actual c)) with (c := c)
    as [HI _]; done.
Qed.

(** [Command.Set] does write it: after a successful [c.Set(name, value)]
    the name is in the actual set. *)
Lemma Set_flag_records (c : Command) (k value : string) (flag : Flag) :
  formal c !! k = Some flag -> snd (Set_ (Value flag) value) = None ->
  res (Set_flag k value c) = Ok None /\ k ∈ actual (final (Set_flag k value c)).
Proof.
  intros Hk Hok. unfold Set_flag. rewrite bind_get, Hk.
  rewrite (run_bind_ok _ _ _ _ _ (set_flag_value_run c k value flag Hk)), Hok.
  rewrite bind_get, bind_put. cbn. split; [done | set_solver].
Qed.

(** The dispatcher takes at least one token off a stream that is not
    empty, and never puts one back. *)
Lemma parseOne_takes_a_token (c : Command) :
  (length (args (final (parseOne c))) <= Nat.pred (length (args c)))%nat.
Proof.
  destruct (parseOne_post (fun c' => (length (args c') <= Nat.pred (length (args c)))%nat) c)
    as [HI _]; try done.
  - intros c' HI. cbn. destruct (args c'); cbn in *; lia.
  - by intros ->.
  - destruct (args c); cbn; lia.
Qed.

(** Without tokens the dispatcher reports that nothing is left. *)
Lemma parseOne_nil (c : Command) :
  args c = [] -> parseOne c = Outcome (Ok (None, false, None)) c [].
Proof. intros Hargs. unfold parseOne. by rewrite bind_get, Hargs. Qed.

(** ** [Parse] returns

    Each turn of the loop of [Parse] takes a token off the stream or ends
    the loop, so the fuel of the model is enough as soon as it exceeds the
    number of tokens by two. *)

Lemma res_bind {S A B} (m : M S A) (f : A -> M S B) (s : S) :
  res ((m ≫= f) s) =
  match res (m s) with
  | Ok a => res (f a (final (m s)))
  | Panic v => Panic v
  | Exit code => Exit code
  end.
Proof. rewrite run_bind. by destruct (res (m s)). Qed.

Lemma res_with_defer {S A} (d : M S unit) (body : M S A) (s : S) (a : A) :
  res (with_defer d body s) = Ok a -> res (body s) = Ok a.
Proof.
  unfold with_defer. destruct (res (body s)) eqn:Hb; try (by rewrite Hb);
    by destruct (res (d (final (body s)))).
Qed.

Lemma World_eta (w : World) : with_heap w (heap w) = w.
Proof. by destruct w. Qed.

Lemma on_get (w : World) (c : nat) (cmd : Command) :
  heap w !! c = Some cmd -> on c get w = Outcome (Ok cmd) w [].
Proof.
  intros Hc. rewrite (on_run _ _ _ _ Hc). cbn [get res final lines].
  by rewrite list_insert_id, World_eta.
Qed.

Lemma on_update (w : World) (c : nat) (cmd : Command) (g : Command -> Command) :
  heap w !! c = Some cmd ->
  on c (update g) w = Outcome (Ok tt) (with_heap w (<[c := g cmd]> (heap w))) [].
Proof. intros Hc. rewrite (on_run _ _ _ _ Hc). unfold update. by rewrite bind_get. Qed.

Lemma Handle_final (err : option error) (c : Command) : final (Handle err c) = c.
Proof.
  destruct err as [e |]; [| done]. unfold Handle. rewrite bind_get.
  destruct (_ =? _)%N; [done |].
  destruct (_ =? _)%N; [done |].
  by destruct (_ =? _)%N.
Qed.

Lemma Parse_loop_returns (fuel : nat) (w : World) (c : nat) (cmd : Command) :
  heap w !! c = Some cmd -> (length (args cmd) < fuel)%nat ->
  res (Parse_run fuel c in_loop w) <> Ok None.
Proof.
  revert w cmd. induction fuel as [|fuel IH]; intros w cmd Hc Hlen; [lia |].
  cbn [Parse_run]. rewrite res_bind, (on_run _ _ _ _ Hc). cbn [res final].
  destruct (res (parseOne cmd)) as [[[child seen] err] | v | code] eqn:Hres; try done.
  pose proof (parseOne_child_nil _ _ _ _ Hres) as ->.
  set (cmd1 := final (parseOne cmd)).
  set (w1 := with_heap w (<[c := cmd1]> (heap w))).
  assert (heap w1 !! c = Some cmd1) as Hc1.
  { subst w1. cbn [heap with_heap]. apply list_lookup_insert_eq.
    by eapply lookup_lt_Some. }
  destruct (args cmd) as [|arg rest] eqn:Hargs.
  { rewrite (parseOne_nil _ Hargs) in Hres. by injection Hres as <- <-. }
  assert (length (args cmd1) < fuel)%nat as Hlen1.
  { pose proof (parseOne_takes_a_token cmd) as Hle. fold cmd1 in Hle.
    rewrite Hargs in Hle. cbn in Hle, Hlen. lia. }
  destruct seen; [by apply (IH w1 cmd1) |].
  destruct err as [e |]; [| done].
  rewrite res_bind, (on_run _ _ _ _ Hc1). cbn [res final].
  destruct (res (Handle (Some e) cmd1)); try done.
  rewrite Handle_final.
  apply (IH _ cmd1); [| done].
  cbn [heap with_heap]. apply list_lookup_insert_eq.
  by eapply lookup_lt_Some.
Qed.

(** [Parse] never runs out of fuel when given two more units than there
    are tokens in any stream it can start from. *)
Lemma Parse_returns (N fuel : nat) (w : World) (c : nat) (args' : list string) :
  (length args' <= N)%nat -> (length (os_Args w) <= N)%nat ->
  (forall i cmd, heap w !! i = Some cmd -> (length (args cmd) <= N)%nat) ->
  (N + 2 <= fuel)%nat ->
  res (Parse fuel c args' w) <> Ok None.
Proof.
  intros Hargs' Hos Hheap Hfuel Hres.
  destruct fuel as [|fuel]; [lia |]. unfold Parse in Hres. cbn [Parse_run] in Hres.
  apply res_with_defer in Hres. revert Hres.
  rewrite res_bind.
  destruct (heap w !! c) as [cmd |] eqn:Hc; [| by unfold on; rewrite Hc].
  rewrite (on_get _ _ _ Hc). cbn [res final]. rewrite bind_get.
  assert (forall t, (length t <= N)%nat ->
          res (Parse_run fuel c in_loop
                 (with_heap w (<[c := with_args cmd t]> (heap w)))) <> Ok None) as Hloop.
  { intros t Ht. apply (Parse_loop_returns _ _ _ (with_args cmd t)); [| cbn; lia].
    cbn [heap with_heap]. apply list_lookup_insert_eq. by eapply lookup_lt_Some. }
  destruct (parent cmd) as [p |].
  - destruct (heap w !! p) as [pc |] eqn:Hp.
    2:{ rewrite res_bind, res_bind. unfold on. by rewrite Hp. }
    destruct (args pc) as [|a t] eqn:Hpargs.
    { rewrite res_bind, (run_bind_ok _ _ _ _ _ (on_get _ _ _ Hp)), Hpargs. done. }
    erewrite run_bind_ok.
    2:{ rewrite (run_bind_ok _ _ _ _ _ (on_get _ _ _ Hp)), Hpargs.
        by apply on_update. }
    apply Hloop. specialize (Hheap p pc Hp). rewrite Hpargs in Hheap. cbn in Hheap. lia.
  - destruct args' as [|a t].
    + destruct (os_Args w) as [|a t]; [by rewrite res_bind |].
      rewrite (run_bind_ok _ _ _ _ _ (on_update _ _ _ _ Hc)).
      apply Hloop. cbn in Hos. lia.
    + rewrite (run_bind_ok _ _ _ _ _ (on_update _ _ _ _ Hc)). by apply Hloop.
Qed.

(** ** [Parse] on the example commands *)

(** C1, on the code.  The token [--count=10] is split at [=] into the
    name [--count] and the value; the name goes to [accepts] with its
    dashes, matches no flag, and the token is refused as an unknown flag:
    [count] stays at 5.  Written without dashes the token sets [count] to
    10.  In neither case, nor without arguments, does [Parse] record
    anything in the actual set. *)
Theorem Parse_count_assignment :
  let dashed := Parse 10 0 ["--count=10"] count_process in
  let plain := Parse 10 0 ["count=10"] count_process in
  let none := Parse 10 0 [] count_process in
  (res dashed = Ok (Some None) /\
   lines dashed = [print_err os_Stderr (Errorf (msg_unknown_flag "--count"))] /\
   flag_value (cmd_at (final dashed) 0) "count" = Some (any_int 5) /\
   actual (cmd_at (final dashed) 0) = ∅) /\
  (res plain = Ok (Some None) /\
   lines plain = [] /\
   flag_value (cmd_at (final plain) 0) "count" = Some (any_int 10) /\
   actual (cmd_at (final plain) 0) = ∅) /\
  (res none = Ok (Some None) /\
   flag_value (cmd_at (final none) 0) "count" = Some (any_int 5) /\
   actual (cmd_at (final none) 0) = ∅).
Proof. vm_compute. repeat split. Qed.

(** C3, on the code.  [Parse] on the root takes the token [build] off the
    stream and stops there: no child is selected, the root is left with
    the one positional argument [--verbose], and the child [build] is
    neither parsed nor given any token.  A call of [Parse] on the child
    itself starts from the tokens of the root without the first, here
    none, so that [--verbose] does not reach the child either. *)
Theorem Parse_build_verbose :
  let o := Parse 10 0 ["build"; "--verbose"] build_test_process in
  let o' := Parse 10 1 [] (final o) in
  (name (cmd_at build_test_process 1) = "build" /\
   name (cmd_at build_test_process 2) = "test" /\
   children (cmd_at build_test_process 0) = [1%nat; 2%nat] /\
   parent (cmd_at build_test_process 1) = Some 0%nat) /\
  (res o = Ok (Some None) /\
   lines o = [] /\
   args (cmd_at (final o) 0) = ["--verbose"] /\
   parsed (cmd_at (final o) 0) = true /\
   parsed (cmd_at (final o) 1) = false /\
   args (cmd_at (final o) 1) = [] /\
   flag_value (cmd_at (final o) 1) "verbose" = Some (any_bool false)) /\
  (res o' = Ok (Some None) /\
   parsed (cmd_at (final o') 1) = true /\
   args (cmd_at (final o') 1) = [] /\
   flag_value (cmd_at (final o') 1) "verbose" = Some (any_bool false)).
Proof. vm_compute. repeat split. Qed.

(** C5, on the code.  The terminator [--] is refused as an unknown flag
    with the empty name and the scan goes on: [-notaflag] is then read as
    a cluster and refused at its first character, and no positional
    argument is left.  A bare [-] is swallowed as a flag, and the first
    token that is no flag is dropped: of [foo bar] only [bar] is left. *)
Theorem Parse_terminator :
  let o := Parse 10 0 ["--"; "-notaflag"] count_process in
  let dash := Parse 10 0 ["-"; "x"] count_process in
  let free := Parse 10 0 ["foo"; "bar"] count_process in
  (res o = Ok (Some None) /\
   lines o = [print_err os_Stderr (Errorf (msg_unknown_flag EmptyString));
              print_err os_Stderr (Errorf (msg_unknown_flag "n"))] /\
   args (cmd_at (final o) 0) = []) /\
  (res dash = Ok (Some None) /\ lines dash = [] /\ args (cmd_at (final dash) 0) = []) /\
  (res free = Ok (Some None) /\ lines free = [] /\ args (cmd_at (final free) 0) = ["bar"]).
Proof. vm_compute. repeat split. Qed.

(** The cluster [-an] followed by 5 on the example command. *)
Lemma Parse_cluster_an :
  let o := Parse 10 0 ["-an"; "5"] cluster_process in
  res o = Ok (Some None) /\
  lines o = [] /\
  flag_value (cmd_at (final o) 0) "a" = Some (any_bool true) /\
  flag_value (cmd_at (final o) 0) "n" = Some (any_int 5) /\
  args (cmd_at (final o) 0) = [].
Proof. vm_compute. repeat split. Qed.

(** ** [Var] and [NewCommand] *)

Lemma bind_sprintf {B} (m : message) (f : message -> M Command B) (c : Command) :
  (sprintf m ≫= f) c =
  Outcome (res (f m c)) (final (f m c)) (print_msg (Output c) m :: lines (f m c)).
Proof. reflexivity. Qed.

(** On a command without flags [Var] stores the flag, whatever its name,
    unless the name starts with a dash or holds an equals sign. *)
Lemma Var_first_flag (helpName : string) (c : Command) (value : Getter)
    (name' usage : string) (short : bool) :
  formal c = ∅ ->
  strings_HasPrefix name' "-" = false -> strings_Contains name' "=" = false ->
  Var helpName value name' usage short c =
  Outcome (Ok (mkFlag name' usage (String_ value) short value))
    (with_formal c {[name' := mkFlag name' usage (String_ value) short value]}) [].
Proof.
  intros Hempty Hdash Heq. unfold Var. rewrite Hdash, Heq.
  rewrite bind_get, Hempty, lookup_empty, bind_ret. cbn [Short Name].
  rewrite map_to_list_empty.
  assert ((if short then Var_collisions helpName name' [] else mret tt) c
          = Outcome (Ok tt) c []) as Hloop by (by destruct short).
  rewrite (run_bind_ok _ _ _ _ _ Hloop).
  rewrite bind_get, Hempty, bind_put. by rewrite insert_empty.
Qed.

(** What [NewCommand] does in a process where [EnvUrl] succeeds and the
    help-flag name is a legal flag name. *)
Lemma NewCommand_run (w : World) (name' : string) (policy : ErrorPolicy) (url : string) :
  url_JoinPath w (os_Getenv w "REPO_HOST") [os_Getenv w "DEVELOPER"; name'] = (url, None) ->
  strings_HasPrefix (HelpName w) "-" = false ->
  strings_Contains (HelpName w) "=" = false ->
  exists h,
    NewCommand name' policy w = Outcome (Ok (length (heap w))) (with_heap w h) [] /\
    h !! length (heap w) =
      Some (if bool_decide (name' <> HelpName w)
            then mkCommand None None ∅ {[HelpName w := help_flag (HelpName w)]}
                   (Some method_defaultUsage) "%s [options] [args...]" name' url
                   [] [] [] false policy false
            else mkCommand None None ∅ ∅ None "%s [options] [args...]" name' url
                   [] [] [] false policy false) /\
    length h = S (length (heap w)) /\
    (forall i, (i < length (heap w))%nat -> h !! i = heap w !! i).
Proof.
  intros Hurl Hdash Heq.
  assert (EnvUrl name' w = Outcome (Ok url) w []) as HEnv.
  { unfold EnvUrl. by rewrite bind_get, Hurl. }
  unfold NewCommand. rewrite (run_bind_ok _ _ _ _ _ HEnv), bind_get, bind_put.
  set (c0 := mkCommand _ _ _ _ _ _ _ _ _ _ _ _ _ _).
  set (w1 := with_heap w (heap w ++ [c0])).
  assert (heap w1 !! length (heap w) = Some c0) as Hc0.
  { subst w1. simpl. by rewrite list_lookup_middle. }
  cbn [HelpName with_heap].
  case_bool_decide as Hname.
  - pose proof (Var_first_flag (HelpName w) c0 (boolValue false) (HelpName w)
                  "print this message" true eq_refl Hdash Heq) as HVar.
    cbn [String_ strconv_FormatBool] in HVar.
    assert (on (length (heap w))
              (Var (HelpName w) (boolValue false) (HelpName w) "print this message" true) w1
            = Outcome (Ok (help_flag (HelpName w)))
                (with_heap w (<[length (heap w) :=
                   with_formal c0 {[HelpName w := help_flag (HelpName w)]}]> (heap w ++ [c0])))
                []) as Hon.
    { rewrite (on_run _ _ _ _ Hc0), HVar. reflexivity. }
    erewrite (run_bind_ok _ _ _ _ tt).
    2:{ rewrite (run_bind_ok _ _ _ _ _ Hon). erewrite on_run.
        2:{ cbn [heap with_heap]. apply list_lookup_insert_eq.
            rewrite length_app. simpl. lia. }
        unfold update. rewrite bind_get. cbn [put res final lines]. reflexivity. }
    eexists. split; [reflexivity |].
    cbn [heap with_heap]. split_and!.
    + rewrite list_lookup_insert_eq; [done |].
      rewrite length_insert, length_app. simpl. lia.
    + rewrite !length_insert, length_app. simpl. lia.
    + intros i Hi. rewrite !list_lookup_insert_ne by lia. by rewrite lookup_app_l.
  - rewrite bind_ret. eexists. split; [reflexivity |]. split_and!.
    + by rewrite list_lookup_middle.
    + rewrite length_app. simpl. lia.
    + intros i Hi. by rewrite lookup_app_l.
Qed.

(** C10.  In a process where [EnvUrl] succeeds and the current help-flag
    name is a legal flag name, [NewCommand(name, policy)] returns a new
    command with that name and policy.  When [name] differs from the
    help-flag name its formal set holds exactly one flag, registered
    under the help-flag name: boolean, short-eligible, with the default
    false.  When [name] is the help-flag name the formal set is empty. *)
Theorem NewCommand_help_flag (w : World) (name' : string) (policy : ErrorPolicy) :
  snd (url_JoinPath w (os_Getenv w "REPO_HOST") [os_Getenv w "DEVELOPER"; name']) = None ->
  strings_HasPrefix (HelpName w) "-" = false ->
  strings_Contains (HelpName w) "=" = false ->
  let o := NewCommand name' policy w in
  let c := cmd_at (final o) (length (heap w)) in
  res o = Ok (length (heap w)) /\
  lines o = [] /\
  name c = name' /\
  errorPolicy c = policy /\
  (name' <> HelpName w ->
   formal c = {[HelpName w := help_flag (HelpName w)]} /\
   IsBool (Value (help_flag (HelpName w))) = true /\
   Short (help_flag (HelpName w)) = true /\
   DefValue (help_flag (HelpName w)) = "false" /\
   Get (Value (help_flag (HelpName w))) = any_bool false) /\
  (name' = HelpName w -> formal c = ∅).
Proof.
  intros Hurl Hdash Heq. cbv zeta.
  destruct (url_JoinPath w _ _) as [url err] eqn:HJ. simpl in Hurl. subst err.
  destruct (NewCommand_run w name' policy url HJ Hdash Heq) as (h & -> & Hh & _ & _).
  unfold cmd_at. cbn [res final lines heap with_heap]. rewrite Hh. cbn [default].
  case_bool_decide as Hname; cbn; split_and!; done.
Qed.

Lemma NewCommand_help_flag_witness :
  let o := NewCommand "prog" ExitOnError bare_process in
  res o = Ok 0%nat /\
  formal (cmd_at (final o) 0) = {[ "help" := help_flag "help" ]}.
Proof.
  pose proof (NewCommand_help_flag bare_process "prog" ExitOnError
                eq_refl eq_refl eq_refl) as H.
  cbv zeta in *. destruct H as (Hres & _ & _ & _ & Hhelp & _).
  split; [exact Hres |].
  exact (proj1 (Hhelp ltac:(discriminate))).
Defined.

(** One turn of the loop of [Var], when no name is empty. *)
Lemma Var_collisions_step (helpName name' k : string) (other : Flag)
    (rest : list (string * Flag)) (c : Command) :
  name' <> EmptyString -> Name other <> EmptyString ->
  Var_collisions helpName name' ((k, other) :: rest) c =
  if collides name' other then
    if bool_decide (helpName = Name other)
    then Var_collisions helpName name' rest (with_formal c (alter revoke k (formal c)))
    else Outcome (Panic (panic_msg (msg_short_collision name' (Name other)))) c
           [print_msg (Output c) (msg_short_collision name' (Name other))]
  else Var_collisions helpName name' rest c.
Proof.
  intros Hn Ho. unfold collides. cbn [Var_collisions].
  case_bool_decide as Hne; [| done]. cbn [andb].
  destruct (Name other) as [|a on] eqn:HN; [done |].
  destruct name' as [|b n']; [done |].
  cbn [first_byte]. rewrite !bind_ret.
  destruct ((byte_of a =? byte_of b) && Short other); [| done].
  case_bool_decide; [by rewrite bind_get, bind_put |].
  by rewrite bind_sprintf.
Qed.

(** The flags that the loop revokes, as a fold over the iteration. *)
Lemma Var_collisions_ok (helpName name' : string) (l : list (string * Flag)) (c : Command) :
  name' <> EmptyString ->
  (forall k o, (k, o) ∈ l -> Name o <> EmptyString) ->
  (forall k o, (k, o) ∈ l -> collides name' o = true -> Name o = helpName) ->
  Var_collisions helpName name' l c =
  Outcome (Ok tt)
    (with_formal c
       (foldl (fun m '(k, o) => if collides name' o then alter revoke k m else m)
          (formal c) l)) [].
Proof.
  intros Hn. revert c. induction l as [|[k o] l IH]; intros c Hnames Hhelp.
  - cbn [Var_collisions foldl]. unfold with_formal. by rewrite (Command_eta c).
  - rewrite Var_collisions_step; [| done | by eapply Hnames, list_elem_of_here].
    cbn [foldl].
    assert (forall k' o', (k', o') ∈ l -> Name o' <> EmptyString) as Hnames'
      by (intros ? ? ?; eapply Hnames; by apply list_elem_of_further).
    assert (forall k' o', (k', o') ∈ l -> collides name' o' = true -> Name o' = helpName)
      as Hhelp' by (intros ? ? ?; eapply Hhelp; by apply list_elem_of_further).
    destruct (collides name' o) eqn:Hc; [| by apply IH].
    rewrite bool_decide_true by (symmetry; eapply Hhelp; [apply list_elem_of_here | done]).
    by rewrite IH.
Qed.

Lemma foldl_revoke_only (name' k : string) (l : list (string * Flag)) (m : gmap string Flag) :
  (forall k2 o2, (k2, o2) ∈ l -> collides name' o2 = true -> k2 = k) ->
  foldl (fun m '(k, o) => if collides name' o then alter revoke k m else m) m l =
  if existsb (fun '(_, o) => collides name' o) l then alter revoke k m else m.
Proof.
  revert m. induction l as [|[k0 o0] l IH]; intros m Honly; [done |].
  cbn [foldl existsb].
  assert (forall k2 o2, (k2, o2) ∈ l -> collides name' o2 = true -> k2 = k) as Honly'
    by (intros ? ? ?; eapply Honly; by apply list_elem_of_further).
  rewrite IH by done.
  destruct (collides name' o0) eqn:Hc; [| done].
  rewrite (Honly k0 o0) by (done || apply list_elem_of_here). cbn [orb].
  destruct (existsb _ l); [| done].
  rewrite alter_alter_eq. by apply alter_ext.
Qed.

(** A colliding flag that is not the help flag makes the loop panic. *)
Lemma Var_collisions_panics (helpName name' : string) (l : list (string * Flag))
    (c : Command) :
  name' <> EmptyString ->
  (forall k o, (k, o) ∈ l -> Name o <> EmptyString) ->
  (exists k o, (k, o) ∈ l /\ collides name' o = true /\ Name o <> helpName) ->
  exists k' o' c',
    (k', o') ∈ l /\ collides name' o' = true /\ Name o' <> helpName /\
    Var_collisions helpName name' l c =
    Outcome (Panic (panic_msg (msg_short_collision name' (Name o')))) c'
      [print_msg (Output c) (msg_short_collision name' (Name o'))].
Proof.
  intros Hn. revert c. induction l as [|[k0 o0] l IH]; intros c Hnames (k & o & Hin & Hc & Hh).
  - by apply elem_of_nil in Hin.
  - rewrite Var_collisions_step; [| done | by eapply Hnames, list_elem_of_here].
    assert (forall k' o', (k', o') ∈ l -> Name o' <> EmptyString) as Hnames'
      by (intros ? ? ?; eapply Hnames; by apply list_elem_of_further).
    assert (forall c1, Output c1 = Output c ->
            (k, o) ∈ l ->
            exists k' o' c',
              (k', o') ∈ (k0, o0) :: l /\ collides name' o' = true /\ Name o' <> helpName /\
              Var_collisions helpName name' l c1 =
              Outcome (Panic (panic_msg (msg_short_collision name' (Name o')))) c'
                [print_msg (Output c) (msg_short_collision name' (Name o'))]) as Htail.
    { intros c1 Hout Hin'.
      destruct (IH c1 Hnames') as (k' & o' & c' & Hin'' & Hc' & Hh' & ->); [by eauto |].
      exists k', o', c'. rewrite Hout. split_and!; try done. by apply list_elem_of_further. }
    destruct (collides name' o0) eqn:Hc0.
    + case_bool_decide as Hhelp.
      * apply Htail; [done |].
        apply elem_of_cons in Hin as [[= -> ->] | Hin]; [by subst | done].
      * exists k0, o0, c. split_and!; try done; first [apply list_elem_of_here | congruence].
    + apply Htail; [done |].
      apply elem_of_cons in Hin as [[= -> ->] | Hin]; [congruence | done].
Qed.

Lemma collides_nonempty (name' : string) (other : Flag) :
  collides name' other = true -> name' <> EmptyString /\ Name other <> EmptyString.
Proof.
  unfold collides. destruct (Name other), name'; cbn; rewrite ?andb_false_r; done.
Qed.

Lemma wf_formal_names (m : gmap string Flag) (k : string) (o : Flag) :
  wf_formal m -> (k, o) ∈ map_to_list m -> Name o <> EmptyString.
Proof.
  intros Hwf Hin. apply elem_of_map_to_list in Hin.
  destruct (Hwf k o Hin) as [-> ?]. done.
Qed.

Lemma collides_spec (name' : string) (other : Flag) :
  collides name' other = true <->
  Name other <> name' /\ name' <> EmptyString /\ Name other <> EmptyString /\
  string_take 1 (Name other) = string_take 1 name' /\ Short other = true.
Proof.
  unfold collides. rewrite !andb_true_iff, bool_decide_eq_true.
  destruct (Name other) as [|a on], name' as [|b n']; cbn;
    try (split; [by intros [[_ ?] _] | by intros (_ & ? & ? & _)]).
  rewrite Z.eqb_eq. unfold byte_of. split.
  - intros [[Hne Hb] HS]. split_and!; try done. f_equal.
    apply N2Z.inj in Hb. by rewrite <- (ascii_N_embedding a), <- (ascii_N_embedding b), Hb.
  - intros (Hne & _ & _ & [= ->] & HS). done.
Qed.

(** In a registry that satisfies the invariant at most one flag collides
    with a new name. *)
Lemma registry_ok_only_collision (m : gmap string Flag) (name' k : string) (other : Flag) :
  registry_ok m -> m !! k = Some other -> collides name' other = true ->
  only_collision name' k m.
Proof.
  intros [Hwf Hsd] Hk Hc k2 f2 Hk2 Hc2.
  apply collides_spec in Hc as (_ & _ & _ & Hb & HS).
  apply collides_spec in Hc2 as (_ & _ & _ & Hb2 & HS2).
  destruct (Hwf k other Hk) as [Hn _]. destruct (Hwf k2 f2 Hk2) as [Hn2 _].
  apply (Hsd k2 f2 Hk2 k other Hk HS2 HS). congruence.
Qed.

(** The loop of [Var] either panics or revokes the colliding flags. *)
Lemma Var_collisions_result (helpName name' : string) (l : list (string * Flag))
    (c : Command) :
  name' <> EmptyString ->
  (forall k o, (k, o) ∈ l -> Name o <> EmptyString) ->
  (exists v c' p, Var_collisions helpName name' l c = Outcome (Panic v) c' p) \/
  Var_collisions helpName name' l c =
    Outcome (Ok tt)
      (with_formal c
         (foldl (fun m '(k, o) => if collides name' o then alter revoke k m else m)
            (formal c) l)) [].
Proof.
  intros Hn. revert c. induction l as [|[k o] l IH]; intros c Hnames.
  - right. cbn [Var_collisions foldl]. unfold with_formal. by rewrite (Command_eta c).
  - rewrite Var_collisions_step; [| done | by eapply Hnames, list_elem_of_here].
    assert (forall k' o', (k', o') ∈ l -> Name o' <> EmptyString) as Hnames'
      by (intros ? ? ?; eapply Hnames; by apply list_elem_of_further).
    cbn [foldl]. destruct (collides name' o); [| by apply IH].
    case_bool_decide; [| left; by eauto].
    destruct (IH (with_formal c (alter revoke k (formal c))) Hnames') as [Hp | ->];
      [by left | by right].
Qed.

Lemma foldl_revoke_lookup (name' : string) (l : list (string * Flag))
    (m : gmap string Flag) (k : string) :
  foldl (fun m '(k, o) => if collides name' o then alter revoke k m else m) m l !! k =
  if existsb (fun '(k', o) => bool_decide (k' = k) && collides name' o) l
  then revoke <$> m !! k else m !! k.
Proof.
  revert m. induction l as [|[k0 o0] l IH]; intros m; [done |].
  cbn [foldl existsb]. rewrite IH.
  destruct (collides name' o0); [| by rewrite andb_false_r].
  rewrite andb_true_r. case_bool_decide as Hk; cbn [orb].
  - subst k0. rewrite lookup_alter_eq.
    destruct (existsb _ l); [| done]. by destruct (m !! k).
  - by rewrite lookup_alter_ne.
Qed.

Lemma foldl_revoke_map (name' : string) (m : gmap string Flag) :
  foldl (fun m '(k, o) => if collides name' o then alter revoke k m else m) m
    (map_to_list m) = revoke_collisions name' m.
Proof.
  apply map_eq. intros k. rewrite foldl_revoke_lookup. unfold revoke_collisions.
  rewrite lookup_fmap.
  destruct (existsb _ _) eqn:Hex.
  - apply existsb_exists in Hex as ([k' o] & Hin & Hb).
    apply andb_true_iff in Hb as [Hk Hc]. apply bool_decide_eq_true in Hk. subst k'.
    apply list_elem_of_In, elem_of_map_to_list in Hin. rewrite Hin. cbn. by rewrite Hc.
  - destruct (m !! k) as [o |] eqn:Hk; [| done]. cbn.
    destruct (collides name' o) eqn:Hc; [| done].
    assert (existsb (fun '(k', o) => bool_decide (k' = k) && collides name' o)
              (map_to_list m) = true) as Hex'; [| congruence].
    apply existsb_exists. exists (k, o). split.
    + by apply list_elem_of_In, elem_of_map_to_list.
    + by rewrite bool_decide_true, Hc.
Qed.

(** What a call of [Var] that returns has done. *)
Lemma Var_returns (helpName : string) (c c' : Command) (value : Getter)
    (name' usage : string) (short : bool) (flag : Flag) (p : list printed) :
  wf_formal (formal c) -> name' <> EmptyString ->
  Var helpName value name' usage short c = Outcome (Ok flag) c' p ->
  flag = mkFlag name' usage (String_ value) short value /\
  formal c !! name' = None /\
  formal c' = <[name' := flag]>
                (if short then revoke_collisions name' (formal c) else formal c).
Proof.
  intros Hwf Hn. unfold Var.
  destruct (strings_HasPrefix name' "-"); [by rewrite bind_sprintf |].
  destruct (strings_Contains name' "="); [by rewrite bind_sprintf |].
  rewrite bind_get.
  destruct (formal c !! name') as [dup |] eqn:Hdup.
  { rewrite run_bind. case_bool_decide; by rewrite bind_sprintf. }
  rewrite bind_ret. cbn [Short Name].
  destruct short.
  - destruct (Var_collisions_result helpName name' (map_to_list (formal c)) c Hn)
      as [(v & c1 & p1 & Hrun) | Hrun].
    { intros ? ? ?. by eapply wf_formal_names. }
    + by rewrite run_bind, Hrun.
    + rewrite (run_bind_ok _ _ _ _ _ Hrun), bind_get, bind_put.
      cbn [formal with_formal]. rewrite foldl_revoke_map.
      by intros [= <- <- _].
  - rewrite bind_ret, bind_get, bind_put. by intros [= <- <- _].
Qed.

(** [Var] keeps the invariant of the registry. *)
Lemma Var_keeps_registry_ok (helpName : string) (c c' : Command) (value : Getter)
    (name' usage : string) (short : bool) (flag : Flag) (p : list printed) :
  registry_ok (formal c) -> name' <> EmptyString ->
  Var helpName value name' usage short c = Outcome (Ok flag) c' p ->
  registry_ok (formal c').
Proof.
  intros [Hwf Hsd] Hn Hrun.
  destruct (Var_returns _ _ _ _ _ _ _ _ _ Hwf Hn Hrun) as (-> & Hfresh & ->).
  set (flag := mkFlag name' usage (String_ value) short value).
  set (m' := if short then revoke_collisions name' (formal c) else formal c).
  assert (forall k f', m' !! k = Some f' ->
          exists f, formal c !! k = Some f /\ Name f' = Name f /\
                    (Short f' = true -> Short f = true /\ (short = true -> collides name' f = false)))
    as Hm'.
  { intros k f' Hk. subst m'. destruct short.
    - unfold revoke_collisions in Hk. rewrite lookup_fmap in Hk.
      destruct (formal c !! k) as [f |]; [| done]. injection Hk as <-.
      exists f. split; [done |]. destruct (collides name' f); by split.
    - exists f'. by split_and!. }
  split.
  - intros k f' Hk. apply lookup_insert_Some in Hk as [[<- <-] | [Hne Hk]]; [done |].
    destruct (Hm' _ _ Hk) as (f & Hf & -> & _). by apply Hwf.
  - intros k1 f1 Hk1 k2 f2 Hk2 HS1 HS2 Hb.
    apply lookup_insert_Some in Hk1 as [[<- <-] | [Hne1 Hk1]];
      apply lookup_insert_Some in Hk2 as [[<- <-] | [Hne2 Hk2]]; try done.
    + destruct (Hm' _ _ Hk2) as (f & Hf & HN & HS). destruct (HS HS2) as [HSf Hc].
      destruct (Hwf _ _ Hf) as [HNf Hk2ne]. cbn in HS1. specialize (Hc HS1).
      assert (collides name' f = true); [| congruence].
      apply collides_spec. rewrite HNf. by split_and!.
    + destruct (Hm' _ _ Hk1) as (f & Hf & HN & HS). destruct (HS HS1) as [HSf Hc].
      destruct (Hwf _ _ Hf) as [HNf Hk1ne]. cbn in HS2. specialize (Hc HS2).
      assert (collides name' f = true); [| congruence].
      apply collides_spec. rewrite HNf. by split_and!.
    + destruct (Hm' _ _ Hk1) as (g1 & Hg1 & _ & HS1'). destruct (HS1' HS1) as [HSg1 _].
      destruct (Hm' _ _ Hk2) as (g2 & Hg2 & _ & HS2'). destruct (HS2' HS2) as [HSg2 _].
      by apply (Hsd k1 g1 Hg1 k2 g2 Hg2).
Qed.

(** The registry of a new command satisfies the invariant, and so does
    every registry built from it by calls of [Var] with names that are
    not empty. *)
Lemma registry_ok_empty : registry_ok ∅.
Proof. split; apply map_Forall_empty. Qed.

Lemma registry_ok_help (helpName : string) :
  helpName <> EmptyString -> registry_ok {[helpName := help_flag helpName]}.
Proof.
  intros Hne. split.
  - by apply map_Forall_singleton.
  - apply map_Forall_singleton. by apply map_Forall_singleton.
Qed.

(** C8.  In a registry that satisfies the invariant, let a registered
    flag [other] collide with the new short-eligible flag [name']:
    another name, the same first character, short-eligible.  When [other]
    is not the help flag, [Var] panics with a text that it has printed;
    for a legal, fresh [name'] the text is the short name collision with a
    registered flag that is not the help flag.  When [other] is the help
    flag, the registration of a legal, fresh [name'] succeeds without
    printing, the help flag is no longer short-eligible, and the invariant
    holds again. *)
Theorem Var_short_collision (helpName : string) (c : Command) (value : Getter)
    (name' usage k : string) (other : Flag) :
  registry_ok (formal c) ->
  formal c !! k = Some other ->
  collides name' other = true ->
  (Name other <> helpName ->
   exists m c',
     Var helpName value name' usage true c =
       Outcome (Panic (panic_msg m)) c' [print_msg (Output c) m] /\
     (strings_HasPrefix name' "-" = false -> strings_Contains name' "=" = false ->
      formal c !! name' = None ->
      exists k' o', formal c !! k' = Some o' /\ collides name' o' = true /\
                    Name o' <> helpName /\ m = msg_short_collision name' (Name o'))) /\
  (Name other = helpName ->
   strings_HasPrefix name' "-" = false -> strings_Contains name' "=" = false ->
   formal c !! name' = None ->
   Var helpName value name' usage true c =
     Outcome (Ok (mkFlag name' usage (String_ value) true value))
       (with_formal c
          (<[name' := mkFlag name' usage (String_ value) true value]>
             (alter revoke k (formal c)))) [] /\
   Short <$> alter revoke k (formal c) !! k = Some false /\
   registry_ok (<[name' := mkFlag name' usage (String_ value) true value]>
                  (alter revoke k (formal c)))).
Proof.
  intros Hok Hk Hcol.
  pose proof Hok as [Hwf _].
  destruct (collides_nonempty _ _ Hcol) as [Hn Ho].
  assert ((k, other) ∈ map_to_list (formal c)) as Hin by (by apply elem_of_map_to_list).
  split.
  - intros Hnh. unfold Var.
    destruct (strings_HasPrefix name' "-") eqn:Hdash.
    { exists (msg_begins_with_dash name'), c. rewrite bind_sprintf. by split. }
    destruct (strings_Contains name' "=") eqn:Heq.
    { exists (msg_contains_eq name'), c. rewrite bind_sprintf. by split. }
    rewrite bind_get.
    destruct (formal c !! name') as [dup |] eqn:Hdup.
    { rewrite run_bind.
      case_bool_decide.
      - exists (msg_redefined name'), c. rewrite bind_sprintf. by split.
      - exists (msg_cmd_redefined (name c) name'), c. rewrite bind_sprintf. by split. }
    rewrite bind_ret. cbn [Short Name].
    destruct (Var_collisions_panics helpName name' (map_to_list (formal c)) c Hn)
      as (k' & o' & c' & Hin' & Hc' & Hh' & Hrun).
    { intros ? ? ?. by eapply wf_formal_names. }
    { by exists k, other. }
    exists (msg_short_collision name' (Name o')), c'.
    rewrite run_bind, Hrun. split; [done |]. intros _ _ _.
    exists k', o'. split_and!; try done. by apply elem_of_map_to_list.
  - intros Hh Hdash Heq Hfresh.
    pose proof (registry_ok_only_collision _ _ _ _ Hok Hk Hcol) as Honly.
    assert (Var helpName value name' usage true c =
            Outcome (Ok (mkFlag name' usage (String_ value) true value))
              (with_formal c
                 (<[name' := mkFlag name' usage (String_ value) true value]>
                    (alter revoke k (formal c)))) []) as Hrun.
    { unfold Var. rewrite Hdash, Heq.
      rewrite bind_get, Hfresh, bind_ret. cbn [Short Name].
      erewrite run_bind_ok.
      2:{ apply Var_collisions_ok; [done | |].
          - intros ? ? ?. by eapply wf_formal_names.
          - intros k2 o2 Hin2 Hc2. apply elem_of_map_to_list in Hin2.
            rewrite (Honly k2 o2 Hin2 Hc2) in Hin2. congruence. }
      rewrite bind_get, bind_put. cbn [formal with_formal].
      rewrite (foldl_revoke_only name' k).
      2:{ intros k2 o2 Hin2 Hc2. apply elem_of_map_to_list in Hin2. by eapply Honly. }
      replace (existsb _ _) with true; [done |].
      symmetry. apply existsb_exists. exists (k, other). split; [| done].
      by apply list_elem_of_In. }
    split_and!; [done | by rewrite lookup_alter_eq, Hk |].
    by apply (Var_keeps_registry_ok _ _ _ _ _ _ _ _ _ Hok Hn Hrun).
Qed.

Lemma Var_short_collision_witness :
  (Var "help" (intValue 0) "host" "the host" true help_only =
     Outcome (Ok (mkFlag "host" "the host" "0" true (intValue 0)))
       (with_formal help_only
          (<["host" := mkFlag "host" "the host" "0" true (intValue 0)]>
             (alter revoke "help" (formal help_only)))) [] /\
   Short <$> alter revoke "help" (formal help_only) !! "help" = Some false) /\
  (exists m c',
     Var "help" (intValue 0) "hash" "a hash" true help_host =
       Outcome (Panic (panic_msg m)) c' [print_msg (Output help_host) m]).
Proof.
  split.
  - destruct (proj2 (Var_short_collision "help" help_only (intValue 0) "host" "the host"
                       "help" (help_flag "help")
                       ltac:(apply (bool_decide_unpack _); vm_compute; exact I)
                       eq_refl eq_refl)
                eq_refl eq_refl eq_refl eq_refl) as (Hrun & Hshort & _).
    by split.
  - destruct (proj1 (Var_short_collision "help" help_host (intValue 0) "hash" "a hash"
                       "host" (mkFlag "host" "the host" "0" true (intValue 0))
                       ltac:(apply (bool_decide_unpack _); vm_compute; exact I)
                       eq_refl eq_refl) ltac:(discriminate))
      as (m & c' & Hrun & _).
    by exists m, c'.
Defined.

(** ** Name resolution and the values of the flags

    [accepts] looks at the keys and at [Short] only, so storing a value
    in a flag does not change what a name resolves to. *)

Lemma accepts_in_shape (kvs kvs' : list (string * Flag)) (flagName : string) :
  prod_map id shape <$> kvs = prod_map id shape <$> kvs' ->
  accepts_in kvs flagName = accepts_in kvs' flagName.
Proof.
  revert kvs'. induction kvs as [|[k v] kvs IH]; intros [|[k' v'] kvs']; try done.
  cbn. intros [= <- HS _ Hrest]. rewrite HS.
  destruct (Short v'); [destruct k |]; try done;
    repeat case_bool_decide; cbn; auto.
Qed.

Lemma accepts_registry (c1 c : Command) (flagName : string) :
  registry c1 = registry c -> accepts c1 flagName = accepts c flagName.
Proof.
  intros Hr. unfold accepts. apply accepts_in_shape.
  rewrite <- !map_to_list_fmap. by f_equal.
Qed.

Lemma accepts_in_total (kvs : list (string * Flag)) (flagName : string) :
  (forall v, (EmptyString, v) ∉ kvs) -> exists k, accepts_in kvs flagName = Ok k.
Proof.
  induction kvs as [|[k v] kvs IH]; intros Hne; cbn; [by eauto |].
  assert (forall v', (EmptyString, v') ∉ kvs) as Hne'
    by (intros v' Hin; apply (Hne v'); by apply list_elem_of_further).
  destruct (Short v).
  - destruct k as [|c0 k]; [by destruct (Hne v); apply list_elem_of_here |].
    destruct (_ || _); eauto.
  - case_bool_decide; eauto.
Qed.

(** Without a flag registered under the empty name, [accepts] returns. *)
Lemma accepts_total (c : Command) (flagName : string) :
  formal c !! EmptyString = None -> exists k, accepts c flagName = Ok k.
Proof.
  intros Hne. apply accepts_in_total. intros v Hin.
  apply elem_of_map_to_list in Hin. congruence.
Qed.

Lemma registry_lookup (c1 c : Command) (k : string) :
  registry c1 = registry c ->
  shape <$> formal c1 !! k = shape <$> formal c !! k.
Proof. intros Hr. unfold registry in Hr. by rewrite <- !lookup_fmap, Hr. Qed.

Lemma IsBool_Set (v : Getter) (s : string) : IsBool (fst (Set_ v s)) = IsBool v.
Proof.
  destruct v; cbn; try done.
  - by destruct (boolValue_Set s).
  - by destruct (intValue_Set s).
  - by destruct (int64Value_Set s).
  - by destruct (uintValue_Set s).
  - by destruct (uint64Value_Set s).
  - by destruct (float64Value_Set lib s).
  - by destruct (durationValue_Set lib s).
Qed.

Lemma registry_set_value (c : Command) (k : string) (f : Flag) (v : Getter) :
  formal c !! k = Some f -> IsBool v = IsBool (Value f) ->
  registry (with_formal c (<[k := Flag_with_Value f v]> (formal c))) = registry c.
Proof.
  intros Hk Hb. unfold registry. cbn [formal with_formal].
  rewrite fmap_insert. apply insert_id.
  rewrite lookup_fmap, Hk. cbn. unfold shape. cbn. by rewrite Hb.
Qed.

Lemma set_flag_value_registry (c : Command) (k s : string) (f : Flag) :
  formal c !! k = Some f ->
  exists c', set_flag_value k s c = Outcome (Ok (snd (Set_ (Value f) s))) c' [] /\
             registry c' = registry c /\ args c' = args c /\
             formal c' = <[k := Flag_with_Value f (fst (Set_ (Value f) s))]> (formal c).
Proof.
  intros Hk. eexists. split; [by apply set_flag_value_run |].
  split_and!; [| done | done].
  apply registry_set_value; [done | apply IsBool_Set].
Qed.

(** A boolean box set from the text true holds true. *)
Lemma Set_true (v : Getter) : IsBool v = true -> Set_ v "true" = (boolValue true, None).
Proof. by destruct v. Qed.

(** ** The order of the iteration in [accepts]

    Go leaves the order in which [accepts] goes through the map open.
    When exactly one registered flag matches a name, every order gives
    that flag; when none matches, every order gives the empty name. *)

Lemma accepts_in_unique (kvs : list (string * Flag)) (flagName k : string) (v : Flag) :
  (forall v', (EmptyString, v') ∈ kvs -> Short v' = false) ->
  (k, v) ∈ kvs -> matches flagName k v = true ->
  (forall k' v', (k', v') ∈ kvs -> matches flagName k' v' = true -> k' = k) ->
  accepts_in kvs flagName = Ok k.
Proof.
  induction kvs as [|[k0 v0] kvs IH]; intros Hempty Hin Hm Huniq.
  - by apply elem_of_nil in Hin.
  - assert (accepts_in ((k0, v0) :: kvs) flagName =
            if matches flagName k0 v0 then Ok k0 else accepts_in kvs flagName) as ->.
    { cbn. unfold matches. destruct (Short v0) eqn:HS; [| done].
      destruct k0 as [|c0 k0]; [| done].
      rewrite (Hempty v0) in HS; [done | apply list_elem_of_here]. }
    destruct (matches flagName k0 v0) eqn:Hm0.
    + f_equal. apply (Huniq k0 v0); [apply list_elem_of_here | done].
    + apply IH.
      * intros v' Hin'. apply Hempty. by apply list_elem_of_further.
      * apply elem_of_cons in Hin as [[= -> ->] | Hin]; [congruence | done].
      * done.
      * intros k' v' Hin'. apply Huniq. by apply list_elem_of_further.
Qed.

Lemma accepts_in_no_match (kvs : list (string * Flag)) (flagName : string) :
  (forall v', (EmptyString, v') ∈ kvs -> Short v' = false) ->
  (forall k' v', (k', v') ∈ kvs -> matches flagName k' v' = false) ->
  accepts_in kvs flagName = Ok EmptyString.
Proof.
  induction kvs as [|[k0 v0] kvs IH]; intros Hempty Hno; [done |].
  assert (accepts_in ((k0, v0) :: kvs) flagName =
          if matches flagName k0 v0 then Ok k0 else accepts_in kvs flagName) as ->.
  { cbn. unfold matches. destruct (Short v0) eqn:HS; [| done].
    destruct k0 as [|c0 k0]; [| done].
    rewrite (Hempty v0) in HS; [done | apply list_elem_of_here]. }
  rewrite (Hno k0 v0) by apply list_elem_of_here.
  apply IH.
  - intros v' Hin'. apply Hempty. by apply list_elem_of_further.
  - intros k' v' Hin'. apply Hno. by apply list_elem_of_further.
Qed.

(** Whatever the order of the iteration, a name that one flag only
    matches resolves to that flag. *)
Lemma accepts_any_order (c : Command) (kvs : list (string * Flag))
    (flagName k : string) (v : Flag) :
  kvs ≡ₚ map_to_list (formal c) ->
  formal c !! EmptyString = None ->
  formal c !! k = Some v -> matches flagName k v = true ->
  (forall k' v', formal c !! k' = Some v' -> matches flagName k' v' = true -> k' = k) ->
  accepts_in kvs flagName = Ok k /\ accepts c flagName = Ok k.
Proof.
  intros Hperm Hne Hk Hm Huniq.
  assert (forall l, l ≡ₚ map_to_list (formal c) -> accepts_in l flagName = Ok k) as Hany.
  { intros l Hl. apply (accepts_in_unique l flagName k v); try done.
    - intros v' Hin. rewrite Hl in Hin. apply elem_of_map_to_list in Hin. congruence.
    - rewrite Hl. by apply elem_of_map_to_list.
    - intros k' v' Hin. rewrite Hl in Hin. apply elem_of_map_to_list in Hin.
      by apply Huniq. }
  split; [by apply Hany | by apply Hany].
Qed.

Lemma string_take_1_idem (k : string) : string_take 1 (string_take 1 k) = string_take 1 k.
Proof. by destruct k. Qed.

(** In a registry that satisfies the invariant of [Var], at most one flag
    matches a name that is not ambiguous. *)
Lemma matches_unique (m : gmap string Flag) (flagName k k' : string) (v v' : Flag) :
  registry_ok m -> unambiguous m flagName ->
  m !! k = Some v -> matches flagName k v = true ->
  m !! k' = Some v' -> matches flagName k' v' = true ->
  k' = k.
Proof.
  intros [Hwf Hsd] Hun Hk Hm Hk' Hm'. unfold matches in Hm, Hm'.
  apply orb_true_iff in Hm as [Hm | Hm]; apply orb_true_iff in Hm' as [Hm' | Hm'].
  - apply andb_true_iff in Hm as [HS Hm]. apply andb_true_iff in Hm' as [HS' Hm'].
    apply bool_decide_eq_true in Hm, Hm'.
    apply (Hsd k' v' Hk' k v Hk HS' HS). congruence.
  - apply andb_true_iff in Hm as [HS Hm]. apply bool_decide_eq_true in Hm, Hm'.
    subst k'. destruct (Short v') eqn:HS'.
    + apply (Hsd _ v' Hk' k v Hk HS' HS). rewrite Hm. apply string_take_1_idem.
    + by destruct (Hun v' k v Hk' HS' Hk HS).
  - apply andb_true_iff in Hm' as [HS' Hm']. apply bool_decide_eq_true in Hm, Hm'.
    subst k. destruct (Short v) eqn:HS.
    + apply (Hsd k' v' Hk' _ v Hk HS' HS). rewrite Hm'. symmetry. apply string_take_1_idem.
    + by destruct (Hun v k' v' Hk HS Hk' HS').
  - apply bool_decide_eq_true in Hm, Hm'. congruence.
Qed.

Lemma registry_ok_no_empty (m : gmap string Flag) : registry_ok m -> m !! EmptyString = None.
Proof.
  intros [Hwf _]. destruct (m !! EmptyString) as [f |] eqn:He; [| done].
  by destruct (Hwf _ _ He).
Qed.

(** A name that resolves is resolved by the model of [accepts], whose
    order is one of the orders. *)
Lemma resolves_accepts (c : Command) (flagName k : string) :
  resolves c flagName k -> accepts c flagName = Ok k.
Proof. intros Hr. by apply Hr. Qed.

(** In a registry that satisfies the invariant of [Var], a name that is
    not ambiguous resolves to the flag that matches it. *)
Lemma resolves_registered (c : Command) (flagName k : string) (v : Flag) :
  registry_ok (formal c) -> unambiguous (formal c) flagName ->
  formal c !! k = Some v -> matches flagName k v = true ->
  resolves c flagName k.
Proof.
  intros Hok Hun Hk Hm kvs Hperm.
  apply (accepts_any_order c kvs flagName k v); try done.
  - by apply registry_ok_no_empty.
  - intros k' v' Hk' Hm'. by eapply matches_unique.
Qed.

(** The whole name of a short-eligible flag resolves to that flag. *)
Lemma resolves_short (c : Command) (k : string) (f : Flag) :
  registry_ok (formal c) -> formal c !! k = Some f -> Short f = true ->
  resolves c k k.
Proof.
  intros Hok Hk HS. apply (resolves_registered c k k f); try done.
  - intros f' k' g Hf' HS'. congruence.
  - unfold matches. rewrite (bool_decide_true (k = k)) by done. apply orb_true_r.
Qed.

(** ** Clusters of short flags *)

Lemma parseOne_cluster_value_inside (c : Command) (n i r : Z) (k : string) (f : Flag)
    (pre rest : list (Z * Z)) (c1 : Command) :
  formal c !! EmptyString = None ->
  i <> n - 1 ->
  accepts c (string_of_rune r) = Ok k -> formal c !! k = Some f ->
  IsBool (Value f) = false ->
  registry c1 = registry c ->
  exists e c',
    parseOne_cluster (pre ++ (i, r) :: rest) n c1 =
      Outcome (Ok (None, false, Some (Errorf e))) c' [] /\
    registry c' = registry c /\
    (Forall (fun p => names_bool c (snd p)) pre -> e = msg_unexpected_value (string_of_rune r)).
Proof.
  intros Hne Hi Hacc Hk Hb. revert c1.
  induction pre as [|[j q] pre IH]; intros c1 Hr.
  - cbn [app parseOne_cluster]. rewrite bind_get, (accepts_registry c1 c), Hacc by done.
    rewrite bind_lift_Ok.
    pose proof (registry_lookup c1 c k Hr) as Hl. rewrite Hk in Hl.
    destruct (formal c1 !! k) as [f1 |]; [| done].
    injection Hl as _ Hb1. rewrite Hb1, Hb.
    replace (i =? n - 1) with false by lia.
    by exists (msg_unexpected_value (string_of_rune r)), c1.
  - cbn [app parseOne_cluster]. rewrite bind_get, (accepts_registry c1 c) by done.
    destruct (accepts_total c (string_of_rune q) Hne) as [kq Hq]. rewrite Hq, bind_lift_Ok.
    pose proof (registry_lookup c1 c kq Hr) as Hl.
    assert (forall e : message, ~ names_bool c q ->
            Forall (fun p => names_bool c (snd p)) ((j, q) :: pre) ->
            e = msg_unexpected_value (string_of_rune r)) as Hvac.
    { intros e Hnot HF. by inversion HF. }
    destruct (formal c1 !! kq) as [f1 |] eqn:Hf1.
    2:{ exists (msg_unknown_flag (string_of_rune q)), c1. split_and!; try done.
        apply Hvac. intros (k' & f' & Hk' & Hf' & _).
        rewrite Hq in Hk'. injection Hk' as <-. by rewrite Hf' in Hl. }
    destruct (IsBool (Value f1)) eqn:Hb1.
    + destruct (set_flag_value_registry c1 kq "true" f1 Hf1) as (c2 & Hrun & Hr2 & _ & _).
      rewrite (run_bind_ok _ _ _ _ _ Hrun).
      destruct (IH c2) as (e & c' & -> & Hr' & He); [congruence |].
      exists e, c'. split_and!; try done. intros HF. apply He. by inversion HF.
    + assert (~ names_bool c q) as Hnot.
      { intros (k' & f' & Hk' & Hf' & Hb').
        rewrite Hq in Hk'. injection Hk' as <-. rewrite Hf' in Hl.
        injection Hl as _ Hl. congruence. }
      destruct (j =? n - 1).
      * destruct (args c1) as [|a args1] eqn:Hargs.
        { exists (msg_missing_value (string_of_rune q)), c1. split_and!; try done. eauto. }
        destruct (set_flag_value_registry c1 kq a f1 Hf1) as (c2 & Hrun & Hr2 & _ & _).
        rewrite (run_bind_ok _ _ _ _ _ Hrun), bind_get, bind_put.
        destruct (IH (with_args c2 (List.tl (args c2)))) as (e & c' & -> & Hr' & He);
          [by rewrite <- Hr, <- Hr2 |].
        exists e, c'. split_and!; try done. eauto.
      * exists (msg_unexpected_value (string_of_rune q)), c1. split_and!; try done. eauto.
Qed.

(** The cluster [-an] followed by a value, on any command in which [a]
    resolves to a boolean flag and [n] to a flag with a value. *)
Lemma parseOne_cluster_an (c : Command) (v : string) (rest : list string)
    (ka kn : string) (fa fn : Flag) :
  args c = "-an" :: v :: rest ->
  accepts c "a" = Ok ka -> formal c !! ka = Some fa -> IsBool (Value fa) = true ->
  accepts c "n" = Ok kn -> formal c !! kn = Some fn -> IsBool (Value fn) = false ->
  parseOne c =
  Outcome (Ok (None, true, None))
    (with_args
       (with_formal c
          (<[kn := Flag_with_Value fn (fst (Set_ (Value fn) v))]>
             (<[ka := Flag_with_Value fa (boolValue true)]> (formal c))))
       rest) [].
Proof.
  intros Hargs Ha Hka Hba Hn Hkn Hbn.
  assert (ka <> kn) as Hne by (intros ->; congruence).
  unfold parseOne. rewrite bind_get, Hargs, bind_put.
  change (strings_Contains "-an" "=") with false.
  change (strings_HasPrefix "-an" "--") with false.
  change (strings_HasPrefix "-an" "-") with true.
  change (strings_TrimPrefix "-an" "-") with "an".
  change (range_string "an") with [(0, 97); (1, 110)].
  change (len "an") with 2. cbv iota.
  cbn [parseOne_cluster].
  change (string_of_rune 97) with "a". change (string_of_rune 110) with "n".
  set (c0 := with_args c (v :: rest)).
  rewrite bind_get. change (accepts c0 "a") with (accepts c "a").
  rewrite Ha, bind_lift_Ok. change (formal c0) with (formal c). rewrite Hka, Hba.
  destruct (set_flag_value_registry c0 ka "true" fa Hka) as (c1 & Hrun & Hr1 & Hargs1 & Hf1).
  rewrite (run_bind_ok _ _ _ _ _ Hrun), bind_get.
  rewrite (accepts_registry c1 c0) by done. change (accepts c0 "n") with (accepts c "n").
  rewrite Hn, bind_lift_Ok.
  rewrite Set_true in Hf1 by done. cbn [fst] in Hf1.
  assert (formal c1 !! kn = Some fn) as Hkn1.
  { rewrite Hf1, lookup_insert_ne by done. exact Hkn. }
  rewrite Hkn1, Hbn. change (1 =? 2 - 1) with true. cbv iota.
  rewrite Hargs1. cbn [args c0 with_args].
  destruct (set_flag_value_registry c1 kn v fn Hkn1) as (c2 & Hrun2 & Hr2 & Hargs2 & Hf2).
  rewrite (run_bind_ok _ _ _ _ _ Hrun2), bind_get, bind_put.
  rewrite Hargs2, Hargs1. cbn [args c0 with_args List.tl].
  rewrite (set_flag_value_run c1 kn v fn Hkn1) in Hrun2.
  rewrite (set_flag_value_run c0 ka "true" fa Hka), Set_true in Hrun by done.
  injection Hrun as <-. injection Hrun2 as <-.
  reflexivity.
Qed.

(** C7.  Go fixes no order for the loop of [accepts]; the statement is
    about the names that resolve to one flag in every order.

    - On any command on which [a] resolves to a boolean flag and [n] to a
      flag with a value, the cluster [-an] followed by a text sets the
      first flag to true, hands the text to the box of the second and
      takes it off the stream.
    - The names resolve so, to the flags themselves, on every command
      whose registry satisfies the invariant of [Var] and holds a boolean
      short-eligible flag [a] and a short-eligible flag [n] with a value.
    - On the example command, [Parse] of [-an 5] ends with [a] true, [n]
      at 5 and no positional argument.
    - In any cluster whose characters before [r] resolve, a character [r]
      that resolves to a flag with a value and is not the last byte of
      the token makes [parseOne] return an error; when every character
      before it names a boolean flag, the error is the one about [r]. *)
Theorem parseOne_short_cluster :
  (forall (c : Command) (v : string) (rest : list string) (ka kn : string) (fa fn : Flag),
     args c = "-an" :: v :: rest ->
     resolves c "a" ka -> formal c !! ka = Some fa -> IsBool (Value fa) = true ->
     resolves c "n" kn -> formal c !! kn = Some fn -> IsBool (Value fn) = false ->
     parseOne c =
     Outcome (Ok (None, true, None))
       (with_args
          (with_formal c
             (<[kn := Flag_with_Value fn (fst (Set_ (Value fn) v))]>
                (<[ka := Flag_with_Value fa (boolValue true)]> (formal c))))
          rest) []) /\
  (forall (c : Command) (v : string) (rest : list string) (fa fn : Flag),
     registry_ok (formal c) ->
     args c = "-an" :: v :: rest ->
     formal c !! "a" = Some fa -> Short fa = true -> IsBool (Value fa) = true ->
     formal c !! "n" = Some fn -> Short fn = true -> IsBool (Value fn) = false ->
     resolves c "a" "a" /\ resolves c "n" "n" /\
     parseOne c =
     Outcome (Ok (None, true, None))
       (with_args
          (with_formal c
             (<["n" := Flag_with_Value fn (fst (Set_ (Value fn) v))]>
                (<["a" := Flag_with_Value fa (boolValue true)]> (formal c))))
          rest) []) /\
  (let o := Parse 10 0 ["-an"; "5"] cluster_process in
   res o = Ok (Some None) /\
   lines o = [] /\
   flag_value (cmd_at (final o) 0) "a" = Some (any_bool true) /\
   flag_value (cmd_at (final o) 0) "n" = Some (any_int 5) /\
   args (cmd_at (final o) 0) = []) /\
  (forall (c : Command) (s : string) (rest : list string) (pre post : list (Z * Z))
          (i r : Z) (k : string) (f : Flag),
     formal c !! EmptyString = None ->
     args c = String "-" s :: rest ->
     strings_Contains (String "-" s) "=" = false ->
     strings_HasPrefix s "-" = false ->
     range_string s = pre ++ (i, r) :: post ->
     i <> len s - 1 ->
     Forall (fun p => exists k', resolves c (string_of_rune (snd p)) k') pre ->
     resolves c (string_of_rune r) k -> formal c !! k = Some f ->
     IsBool (Value f) = false ->
     exists e c',
       parseOne c = Outcome (Ok (None, false, Some (Errorf e))) c' [] /\
       (Forall (fun p => names_bool c (snd p)) pre ->
        e = msg_unexpected_value (string_of_rune r))).
Proof.
  split_and!.
  - intros c v rest ka kn fa fn Hargs Ha Hka Hba Hn Hkn Hbn.
    apply parseOne_cluster_an; try done; by apply resolves_accepts.
  - intros c v rest fa fn Hok Hargs Ha HSa Hba Hn HSn Hbn.
    pose proof (resolves_short c "a" fa Hok Ha HSa) as Hra.
    pose proof (resolves_short c "n" fn Hok Hn HSn) as Hrn.
    split_and!; [done | done |].
    apply parseOne_cluster_an; try done; by apply resolves_accepts.
  - apply Parse_cluster_an.
  - intros c s rest pre post i r k f Hne Hargs Heq Hdash Hrange Hi _ Hres Hk Hb.
    unfold parseOne. rewrite bind_get, Hargs, bind_put, Heq.
    change (strings_HasPrefix (String "-" s) "--") with (strings_HasPrefix s "-").
    rewrite Hdash.
    change (strings_HasPrefix (String "-" s) "-") with true. cbv iota.
    change (strings_TrimPrefix (String "-" s) "-") with s.
    rewrite Hrange.
    destruct (parseOne_cluster_value_inside c (len s) i r k f pre post (with_args c rest))
      as (e & c' & Hrun & _ & He); try done; [by apply resolves_accepts |].
    by exists e, c'.
Qed.

Lemma parseOne_short_cluster_witness :
  (let c := with_args (cmd_at cluster_process 0) ["-an"; "5"] in
   exists c', parseOne c = Outcome (Ok (None, true, None)) c' [] /\
     flag_value c' "a" = Some (any_bool true) /\
     flag_value c' "n" = Some (any_int 5) /\
     args c' = []) /\
  (let c := with_args (cmd_at cluster_process 0) ["-na"; "5"] in
   exists c', parseOne c =
     Outcome (Ok (None, false, Some (Errorf (msg_unexpected_value "n")))) c' []).
Proof.
  assert (registry_ok (formal (cmd_at cluster_process 0))) as Hok.
  { apply (bool_decide_unpack _). vm_compute. exact I. }
  split; cbv zeta.
  - destruct (proj1 (proj2 parseOne_short_cluster)
                (with_args (cmd_at cluster_process 0) ["-an"; "5"]) "5" []
                (mkFlag "a" "all" "false" true (boolValue false))
                (mkFlag "n" "number" "0" true (intValue 0))
                Hok eq_refl eq_refl eq_refl eq_refl eq_refl eq_refl eq_refl)
      as (_ & _ & Hrun).
    eexists. split; [exact Hrun |]. clear. vm_compute. repeat split.
  - destruct (proj2 (proj2 (proj2 parseOne_short_cluster))
                (with_args (cmd_at cluster_process 0) ["-na"; "5"]) "na" ["5"]
                [] [(1, 97)] 0 110 "n" (mkFlag "n" "number" "0" true (intValue 0))
                eq_refl eq_refl eq_refl eq_refl eq_refl ltac:(vm_compute; discriminate)
                ltac:(constructor)
                (resolves_short _ "n" (mkFlag "n" "number" "0" true (intValue 0))
                   Hok eq_refl eq_refl)
                eq_refl eq_refl)
      as (e & c' & Hrun & He).
    exists c'. rewrite Hrun, (He ltac:(constructor)). reflexivity.
Defined.

(** ** Assignments written with dashes *)

Lemma strings_Contains_app_r (s t sub : string) :
  strings_Contains t sub = true -> strings_Contains (s ++ t)%string sub = true.
Proof.
  intros Ht. induction s as [|a s IH]; [done |].
  change (String a s ++ t)%string with (String a (s ++ t)%string).
  cbn [strings_Contains]. rewrite IH. by destruct (strings_HasPrefix _ sub).
Qed.

Lemma strings_Cut_eq (flagName value : string) :
  strings_Contains flagName "=" = false ->
  strings_Cut (flagName ++ String "=" value)%string "=" = Some (flagName, value).
Proof.
  induction flagName as [|a s IH]; intros Hno.
  - cbn. by destruct value.
  - change (String a s ++ String "=" value)%string
      with (String a (s ++ String "=" value)%string).
    cbn [strings_Contains] in Hno. cbn [strings_Cut].
    destruct (strings_HasPrefix (String a s) "=") eqn:Hp; [done |].
    assert (strings_HasPrefix (String a (s ++ String "=" value)%string) "=" = false) as ->.
    { cbn in *. by destruct (Ascii.eqb a "="). }
    by rewrite IH.
Qed.

(** On a command whose flag names are legal, a token [name=value] whose
    name starts with a dash is refused as an unknown flag: the name is
    looked up with its dashes, and no registered name starts with one. *)
Lemma parseOne_dashed_assignment (c : Command) (flagName value : string)
    (rest : list string) :
  legal_names (formal c) ->
  args c = (flagName ++ String "=" value)%string :: rest ->
  strings_Contains flagName "=" = false ->
  strings_HasPrefix flagName "-" = true ->
  parseOne c =
  Outcome (Ok (None, false, Some (Errorf (msg_unknown_flag flagName))))
    (with_args c rest) [].
Proof.
  intros Hlegal Hargs Hno Hdash.
  assert (formal c !! EmptyString = None) as Hne.
  { destruct (formal c !! EmptyString) eqn:He; [| done]. by destruct (Hlegal _ _ He). }
  assert (accepts c flagName = Ok EmptyString) as Hacc.
  { apply accepts_in_no_match.
    - intros v' Hin. apply elem_of_map_to_list in Hin. congruence.
    - intros k' v' Hin. apply elem_of_map_to_list in Hin.
      destruct (Hlegal _ _ Hin) as [Hk' Hd']. unfold matches.
      apply orb_false_iff. split; [apply andb_false_iff; right |];
        apply bool_decide_eq_false; intros ->.
      + destruct k' as [|a k']; [done |]. cbn in Hdash, Hd'.
        by rewrite Hdash in Hd'.
      + by rewrite Hdash in Hd'. }
  unfold parseOne. rewrite bind_get, Hargs, bind_put.
  rewrite strings_Contains_app_r by (cbn; by destruct value).
  unfold strings_SplitN2. rewrite strings_Cut_eq by done.
  unfold index_strings. cbn [lookup list_lookup]. rewrite !bind_ret, bind_get.
  rewrite accepts_with_args, Hacc, bind_lift_Ok. cbn [formal with_args].
  by rewrite Hne.
Qed.
